(** * ApplyBee: a shallow embedding of the browser extension's core

    The development follows the extension's JavaScript sources:
    - [utils/detect.js]   ([isGreenhouse], [getLabelForElement], [extractFields]),
    - [utils/autofill.js] ([setValue], [findElementForField], [autofillFields],
                           [fallbackFill]),
    - [background.js]     (request records, [fetchWithTimeout], the message
                           handlers) and
    - [popup.js]          ([checkRequestStatus], the polling controller,
                           [checkPendingRequest], [cancelCurrentRequest], the
                           push listener, [escapeHtml], the upload handler).

    How the program is carried:
    - strings are [string]s of ASCII text, with the runtime's string
      operations, a backtracking matcher for the source's regular
      expressions, and [atob];
    - numbers are IEEE 754 binary64 values ([spec_float]), read by
      [parseFloat] and [parseInt] and written by [toString] with correct
      rounding;
    - exceptions are an explicit completion, [try]/[catch] a combinator;
    - the document is a tree of elements, each with its attributes and
      the properties the browser computes for it; an element is a
      position in the tree.  What the code does to the page is an effect
      log: the properties it reads are not changed by what it writes;
    - objects used as maps, the [Map] of pending requests and the
      extension's storage are [gmap]s;
    - the service worker is a state machine over the messages it
      receives and the network and timer events of the calls in flight. *)

From Stdlib Require Import Ascii String ZArith List Bool Lia SpecFloat DecimalString.
From stdpp Require Import base option list strings gmap.

Local Open Scope string_scope.
#[local] Set Warnings "-clear-no-such-hyp".

(** * Part I: the runtime *)

(** ** JavaScript completions: a value, or a thrown exception *)

Inductive JsError :=
| TypeError (msg : string)
| SyntaxError (msg : string)
| InvalidCharacterError.

Inductive completion (A : Type) :=
| Normal (a : A)
| Throw (e : JsError).
Arguments Normal {A} a.
Arguments Throw {A} e.

Definition cbind {A B} (c : completion A) (k : A -> completion B) : completion B :=
  match c with
  | Normal a => k a
  | Throw e => Throw e
  end.

(** [try { c } catch (e) { h e }] *)
Definition try_catch {A} (c : completion A) (h : JsError -> completion A) : completion A :=
  match c with
  | Normal a => Normal a
  | Throw e => h e
  end.

(** ** String primitives of the JavaScript runtime *)

Module Js.

Definition lower_ascii (c : ascii) : ascii :=
  let n := nat_of_ascii c in
  if (65 <=? n)%nat && (n <=? 90)%nat then ascii_of_nat (n + 32) else c.

(** [String.prototype.toLowerCase] *)
Fixpoint toLowerCase (s : string) : string :=
  match s with
  | EmptyString => EmptyString
  | String c s' => String (lower_ascii c) (toLowerCase s')
  end.

(** White space and line terminators, as [trim] and [\s] see them. *)
Definition is_space (c : ascii) : bool :=
  let n := nat_of_ascii c in
  ((9 <=? n)%nat && (n <=? 13)%nat) || (n =? 32)%nat.

Fixpoint trimStart (s : string) : string :=
  match s with
  | EmptyString => EmptyString
  | String c s' => if is_space c then trimStart s' else s
  end.

(** Drops trailing white space: a character is kept when anything that
    is kept follows it, or when it is not white space. *)
Fixpoint trimEnd (s : string) : string :=
  match s with
  | EmptyString => EmptyString
  | String c s' =>
      match trimEnd s' with
      | EmptyString => if is_space c then EmptyString else String c EmptyString
      | t => String c t
      end
  end.

(** [String.prototype.trim] *)
Definition trim (s : string) : string := trimEnd (trimStart s).

(** [String.prototype.includes] *)
Fixpoint includes (s sub : string) : bool :=
  String.prefix sub s ||
  match s with
  | EmptyString => false
  | String _ s' => includes s' sub
  end.

(** [String.prototype.endsWith]: [suf] is one of the tails of [s]. *)
Fixpoint endsWith (s suf : string) : bool :=
  String.eqb s suf ||
  match s with
  | EmptyString => false
  | String _ s' => endsWith s' suf
  end.

(** Truthiness of a string: only the empty string is falsy. *)
Definition truthy (s : string) : bool := negb (String.eqb s "").

(** [a || b] on strings. *)
Definition or_else (a b : string) : string := if truthy a then a else b.

(** [o || b] where [o] may be [undefined] or [null]. *)
Definition opt_or (o : option string) (b : string) : string :=
  match o with
  | Some a => or_else a b
  | None => b
  end.

(** [s || null] *)
Definition or_null (o : option string) : option string :=
  match o with
  | Some a => if truthy a then Some a else None
  | None => None
  end.

End Js.

(** ** Regular expressions

    The source's patterns are built from character classes, bounded and
    unbounded greedy repetition of a class, an optional group, sequencing
    and the word boundary.  Matching is by backtracking, as in the
    runtime: a repetition first takes as many characters as it can and
    gives them back one at a time while the rest of the pattern fails. *)

Module Regex.

Inductive t :=
| Chr (p : ascii -> bool)                          (* one character of a class *)
| Rep (p : ascii -> bool) (lo : nat) (hi : option nat)  (* class{lo,hi} *)
| Opt (r : t)                                      (* (r)? *)
| Seq (r1 r2 : t)
| WordB.                                           (* \b *)

Definition digit (c : ascii) : bool :=
  let n := nat_of_ascii c in (48 <=? n)%nat && (n <=? 57)%nat.

(** [\w] *)
Definition word (c : ascii) : bool :=
  let n := nat_of_ascii c in
  ((48 <=? n)%nat && (n <=? 57)%nat) || ((65 <=? n)%nat && (n <=? 90)%nat)
  || ((97 <=? n)%nat && (n <=? 122)%nat) || (n =? 95)%nat.

Definition chr_is (c : ascii) (x : ascii) : bool := Ascii.eqb c x.

(** [.]: anything but a line terminator *)
Definition dot (c : ascii) : bool :=
  let n := nat_of_ascii c in negb ((n =? 10)%nat || (n =? 13)%nat).

Definition word_opt (o : option ascii) : bool :=
  match o with
  | Some c => word c
  | None => false
  end.

Definition dec_hi (hi : option nat) : option nat := Nat.pred <$> hi.
Definition hi_open (hi : option nat) : bool :=
  match hi with
  | Some O => false
  | _ => true
  end.

(** The state of a match is the character before the position and the
    text from the position on; [k] is the rest of the pattern. *)
Fixpoint rep (p : ascii -> bool) (lo : nat) (hi : option nat)
    (prev : option ascii) (s : list ascii)
    (k : option ascii -> list ascii -> option (list ascii)) : option (list ascii) :=
  let stop := match lo with
              | O => k prev s
              | S _ => None
              end in
  match s with
  | c :: s' =>
      if p c && hi_open hi then
        match rep p (Nat.pred lo) (dec_hi hi) (Some c) s' k with
        | Some rest => Some rest
        | None => stop
        end
      else stop
  | [] => stop
  end.

Fixpoint run (r : t) (prev : option ascii) (s : list ascii)
    (k : option ascii -> list ascii -> option (list ascii)) : option (list ascii) :=
  match r with
  | Chr p =>
      match s with
      | c :: s' => if p c then k (Some c) s' else None
      | [] => None
      end
  | Rep p lo hi => rep p lo hi prev s k
  | Opt r' =>
      match run r' prev s k with
      | Some rest => Some rest
      | None => k prev s
      end
  | Seq r1 r2 => run r1 prev s (fun prev' s' => run r2 prev' s' k)
  | WordB =>
      if xorb (word_opt prev) (word_opt (head s)) then k prev s else None
  end.

(** The leftmost match from the current position on: its text, the
    character before what follows it, and what follows it. *)
Fixpoint search (r : t) (prev : option ascii) (s : list ascii)
  : option (list ascii * option ascii * list ascii) :=
  match run r prev s (fun _ rest => Some rest) with
  | Some rest =>
      let m := take (length s - length rest) s in
      Some (m, last (option_list prev ++ m), rest)
  | None =>
      match s with
      | c :: s' => search r (Some c) s'
      | [] => None
      end
  end.

(** [s.match(r)[0]] for a pattern without the [g] flag, if [r] matches. *)
Definition exec (r : t) (s : string) : option string :=
  match search r None (list_ascii_of_string s) with
  | Some (m, _, _) => Some (string_of_list_ascii m)
  | None => None
  end.

(** [r.test(s)] *)
Definition test (r : t) (s : string) : bool :=
  match exec r s with
  | Some _ => true
  | None => false
  end.

(** [s.match(/\d+/g)]: the maximal runs of digits, left to right;
    [None] stands for [null], the result when there is none. *)
Fixpoint digit_runs (s : list ascii) (cur : list ascii) : list string :=
  match s with
  | [] =>
      match cur with
      | [] => []
      | _ => [string_of_list_ascii (rev cur)]
      end
  | c :: s' =>
      if digit c then digit_runs s' (c :: cur)
      else match cur with
           | [] => digit_runs s' []
           | _ => string_of_list_ascii (rev cur) :: digit_runs s' []
           end
  end.

Definition match_digits (s : string) : option (list string) :=
  match digit_runs (list_ascii_of_string s) [] with
  | [] => None
  | l => Some l
  end.

(** [s.split(/\s+/)]: the pieces between the runs of white space; a run
    at either end leaves an empty piece there. *)
Fixpoint split_ws_go (s : list ascii) (cur : list ascii) (in_gap : bool) : list string :=
  match s with
  | [] => [string_of_list_ascii (rev cur)]
  | c :: s' =>
      if Js.is_space c then
        if in_gap then split_ws_go s' cur true
        else string_of_list_ascii (rev cur) :: split_ws_go s' [] true
      else split_ws_go s' (c :: cur) false
  end.

Definition split_ws (s : string) : list string :=
  split_ws_go (list_ascii_of_string s) [] false.

(** [/[\w\.-]+@[\w\.-]+\.\w+/] *)
Definition email : t :=
  let name := fun c => word c || chr_is "." c || chr_is "-" c in
  Seq (Rep name 1 None)
    (Seq (Chr (chr_is "@"))
      (Seq (Rep name 1 None)
        (Seq (Chr (chr_is ".")) (Rep word 1 None)))).

(** [/(\+?\d{1,3}[\s-]?)?(\d{6,12})/] *)
Definition phone : t :=
  Seq (Opt (Seq (Rep (chr_is "+") 0 (Some 1))
              (Seq (Rep digit 1 (Some 3))
                   (Rep (fun c => Js.is_space c || chr_is "-" c) 0 (Some 1)))))
      (Rep digit 6 (Some 12)).

End Regex.

(** ** Numbers

    A JavaScript number is an IEEE 754 binary64 value, carried as a
    [spec_float] with precision 53 and maximal exponent 1024; the
    arithmetic and the comparisons are the library's, correctly rounded. *)

Module JsNum.

Definition num := spec_float.
Definition prec : Z := 53.
Definition emax : Z := 1024.

Definition pow10 (n : Z) : Z := 10 ^ n.

Definition show_Z (n : Z) : string := NilEmpty.string_of_uint (N.to_uint (Z.to_N n)).

(** The number of decimal digits of a positive integer. *)
Definition digits10 (n : Z) : Z := Z.of_nat (String.length (show_Z n)).

(** The binary64 value nearest to [m * 10^e].  Far outside the range of
    the format the result is known without computing the power. *)
Definition of_decimal (neg : bool) (m : Z) (e : Z) : num :=
  match m with
  | Zpos p =>
      if (400 <? digits10 m + e)%Z then S754_infinity neg
      else if (digits10 m + e <? -400)%Z then S754_zero neg
      else if (0 <=? e)%Z
      then match (m * pow10 e)%Z with
           | Zpos q => binary_round prec emax neg q 0
           | _ => S754_zero neg
           end
      else match pow10 (- e) with
           | Zpos d => SFdiv prec emax (S754_finite neg p 0) (S754_finite false d 0)
           | _ => S754_nan
           end
  | _ => S754_zero neg
  end.

Definition of_Z (n : Z) : num := of_decimal (n <? 0)%Z (Z.abs n) 0.

Definition isNaN (x : num) : bool :=
  match x with
  | S754_nan => true
  | _ => false
  end.

Definition ltb (x y : num) : bool := SFltb x y.
Definition leb (x y : num) : bool := SFleb x y.
Definition sub (x y : num) : num := SFsub prec emax x y.
Definition abs (x : num) : num := SFabs x.

(** *** Reading numbers *)

Definition digit_val (c : ascii) : Z := Z.of_nat (nat_of_ascii c - 48).

(** The longest prefix of digits, as (value, number of digits, rest). *)
Fixpoint read_digits (s : list ascii) (acc : Z) (n : Z) : Z * Z * list ascii :=
  match s with
  | c :: s' =>
      if Regex.digit c then read_digits s' (10 * acc + digit_val c)%Z (n + 1)%Z
      else (acc, n, s)
  | [] => (acc, n, s)
  end.

(** [ExponentPart]: [e] or [E], an optional sign, at least one digit;
    zero when there is none. *)
Definition read_exponent (s : list ascii) : Z :=
  match s with
  | c :: s' =>
      if Ascii.eqb c "e" || Ascii.eqb c "E" then
        let '(neg, s'') :=
          match s' with
          | c' :: t => if Ascii.eqb c' "-" then (true, t)
                       else if Ascii.eqb c' "+" then (false, t)
                       else (false, s')
          | [] => (false, s')
          end in
        let '(v, n, _) := read_digits s'' 0 0 in
        if (n =? 0)%Z then 0%Z else if neg then (- v)%Z else v
      else 0%Z
  | [] => 0%Z
  end.

(** [StrUnsignedDecimalLiteral], longest prefix. *)
Definition read_unsigned (neg : bool) (s : list ascii) : num :=
  if String.prefix "Infinity" (string_of_list_ascii s) then S754_infinity neg
  else
    let '(ip, ni, s1) := read_digits s 0 0 in
    match s1 with
    | c :: s2 =>
        if Ascii.eqb c "." then
          let '(fp, nf, s3) := read_digits s2 0 0 in
          if (ni =? 0)%Z && (nf =? 0)%Z then S754_nan
          else of_decimal neg (ip * pow10 nf + fp)%Z (read_exponent s3 - nf)%Z
        else if (ni =? 0)%Z then S754_nan
        else of_decimal neg ip (read_exponent s1)
    | [] => if (ni =? 0)%Z then S754_nan else of_decimal neg ip 0
    end.

(** [parseFloat] *)
Definition parseFloat (s : string) : num :=
  match list_ascii_of_string (Js.trimStart s) with
  | c :: s' =>
      if Ascii.eqb c "-" then read_unsigned true s'
      else if Ascii.eqb c "+" then read_unsigned false s'
      else read_unsigned false (c :: s')
  | [] => S754_nan
  end.

(** [parseInt(s)], radix 10 *)
Definition parseInt (s : string) : num :=
  match list_ascii_of_string (Js.trimStart s) with
  | c :: s' =>
      let '(neg, body) :=
        if Ascii.eqb c "-" then (true, s')
        else if Ascii.eqb c "+" then (false, s')
        else (false, c :: s') in
      let '(v, n, _) := read_digits body 0 0 in
      if (n =? 0)%Z then S754_nan else of_decimal neg v 0
  | [] => S754_nan
  end.

(** *** Writing numbers *)

(** The shortest decimal that reads back as the positive value
    [m * 2^e]: the digits [s], their number [k], and the position [n] of
    the decimal point, such that the value is read from [s * 10^(n-k)];
    among the candidates of that length the one closest to the value is
    taken, the even one on a tie. *)
Definition ratio (m : positive) (e : Z) : Z * Z :=
  if (0 <=? e)%Z then (Zpos m * 2 ^ e, 1)%Z else (Zpos m, 2 ^ (- e))%Z.

(** [num/den] scaled by [10^j], as a fraction. *)
Definition scale10 (nd : Z * Z) (j : Z) : Z * Z :=
  let '(nu, de) := nd in
  if (0 <=? j)%Z then (nu * pow10 j, de)%Z else (nu, de * pow10 (- j))%Z.

(** The [n] with [10^(n-1) <= num/den < 10^n]. *)
Definition point (nd : Z * Z) : Z :=
  let '(nu, de) := nd in
  let n0 := (digits10 nu - digits10 de)%Z in
  let '(a, b) := scale10 nd (- n0) in
  if (a <? b)%Z then n0 else (n0 + 1)%Z.

Definition reads_back (x : num) (s : Z) (j : Z) : bool :=
  match SFcompare (of_decimal false s j) x with
  | Some Eq => true
  | _ => false
  end.

Fixpoint shortest_from (x : num) (nd : Z * Z) (n : Z) (k : Z) (fuel : nat) : Z * Z * Z :=
  let '(a, b) := scale10 nd (k - n) in
  let lo := (a / b)%Z in
  let hi := (lo + 1)%Z in
  let ok_lo := reads_back x lo (n - k) in
  let ok_hi := reads_back x hi (n - k) in
  let pick (s : Z) := if (s =? pow10 k)%Z then (pow10 (k - 1), k, n + 1)%Z else (s, k, n) in
  match fuel with
  | O => pick lo
  | S fuel' =>
      if ok_lo && ok_hi then
        match (2 * a ?= (2 * lo + 1) * b)%Z with
        | Lt => pick lo
        | Gt => pick hi
        | Eq => if Z.even lo then pick lo else pick hi
        end
      else if ok_lo then pick lo
      else if ok_hi then pick hi
      else shortest_from x nd n (k + 1) fuel'
  end.

Definition shortest (m : positive) (e : Z) : Z * Z * Z :=
  let nd := ratio m e in
  shortest_from (S754_finite false m e) nd (point nd) 1 17.

Fixpoint zeros (n : nat) : string :=
  match n with
  | O => ""
  | S n' => String "0" (zeros n')
  end.

(** [Number::toString] on a positive finite value, from its digits. *)
Definition format (s k n : Z) : string :=
  let ds := show_Z s in
  if (k <=? n)%Z && (n <=? 21)%Z then ds ++ zeros (Z.to_nat (n - k))
  else if (0 <? n)%Z && (n <=? 21)%Z then
    substring 0 (Z.to_nat n) ds ++ "." ++ substring (Z.to_nat n) (Z.to_nat (k - n)) ds
  else if (-6 <? n)%Z && (n <=? 0)%Z then "0." ++ zeros (Z.to_nat (- n)) ++ ds
  else
    let ex := (n - 1)%Z in
    let exs := (if (ex <? 0)%Z then "-" else "+") ++ show_Z (Z.abs ex) in
    if (k =? 1)%Z then ds ++ "e" ++ exs
    else substring 0 1 ds ++ "." ++ substring 1 (Z.to_nat (k - 1)) ds ++ "e" ++ exs.

(** [String(x)], as in a template literal *)
Definition toString (x : num) : string :=
  match x with
  | S754_nan => "NaN"
  | S754_zero _ => "0"
  | S754_infinity neg => if neg then "-Infinity" else "Infinity"
  | S754_finite neg m e =>
      let '(s, k, n) := shortest m e in
      (if neg then "-" else "") ++ format s k n
  end.

End JsNum.

(** ** [atob]: forgiving base64 decoding *)

Module Base64.

Definition sextet (c : ascii) : option N :=
  let n := N_of_ascii c in
  if (65 <=? n)%N && (n <=? 90)%N then Some (n - 65)%N
  else if (97 <=? n)%N && (n <=? 122)%N then Some (n - 71)%N
  else if (48 <=? n)%N && (n <=? 57)%N then Some (n + 4)%N
  else if (n =? 43)%N then Some 62%N
  else if (n =? 47)%N then Some 63%N
  else None.

(** ASCII white space: tab, line feed, form feed, carriage return, space. *)
Definition ascii_ws (c : ascii) : bool :=
  let n := nat_of_ascii c in
  (n =? 9)%nat || (n =? 10)%nat || (n =? 12)%nat || (n =? 13)%nat || (n =? 32)%nat.

Definition is_pad (c : ascii) : bool := Ascii.eqb c "=".

(** Removes one or two trailing padding characters. *)
Definition strip_padding (l : list ascii) : list ascii :=
  match rev l with
  | a :: b :: r => if is_pad a then (if is_pad b then rev r else rev (b :: r)) else l
  | [a] => if is_pad a then [] else l
  | [] => l
  end.

Fixpoint sextets (l : list ascii) : option (list N) :=
  match l with
  | [] => Some []
  | c :: l' =>
      match sextet c, sextets l' with
      | Some v, Some vs => Some (v :: vs)
      | _, _ => None
      end
  end.

Definition byte (n : N) : ascii := ascii_of_N (n mod 256).

Fixpoint bytes_of (l : list N) : list ascii :=
  match l with
  | a :: b :: c :: d :: r =>
      byte (a * 4 + b / 16) :: byte ((b mod 16) * 16 + c / 4) :: byte ((c mod 4) * 64 + d)
      :: bytes_of r
  | [a; b; c] => [byte (a * 4 + b / 16); byte ((b mod 16) * 16 + c / 4)]
  | [a; b] => [byte (a * 4 + b / 16)]
  | _ => []
  end.

(** [atob(data)]: the decoded bytes as a binary string, or the
    [InvalidCharacterError] it throws. *)
Definition atob (data : string) : completion string :=
  let d := filter (fun c => ascii_ws c = false) (list_ascii_of_string data) in
  let d := if (length d mod 4 =? 0)%nat then strip_padding d else d in
  if (length d mod 4 =? 1)%nat then Throw InvalidCharacterError
  else match sextets d with
       | Some vs => Normal (string_of_list_ascii (bytes_of vs))
       | None => Throw InvalidCharacterError
       end.

End Base64.

(** ** Values carried by responses *)

Inductive JsValue :=
| VUndefined
| VNull
| VBool (b : bool)
| VNumber (n : JsNum.num)
| VString (s : string)
| VObject (json : string).   (* an object or array, by its JSON text *)

Definition value_truthy (v : JsValue) : bool :=
  match v with
  | VUndefined | VNull => false
  | VBool b => b
  | VNumber n =>
      match n with
      | S754_zero _ | S754_nan => false
      | _ => true
      end
  | VString s => Js.truthy s
  | VObject _ => true
  end.

(** [a || b] *)
Definition value_or (a b : JsValue) : JsValue := if value_truthy a then a else b.

(** An integer number of milliseconds or seconds, as a template literal
    prints it. *)
Definition show_int (z : Z) : string :=
  if (z <? 0)%Z then "-" ++ JsNum.show_Z (- z) else JsNum.show_Z z.

(** [Math.round(ms / 1000)] *)
Definition round_seconds (ms : Z) : Z := ((ms + 500) / 1000)%Z.

(** * Part II: the page and the content script *)

(** ** The document

    An element carries its content attributes and the properties the
    browser computes for it (rendered text, computed style, layout).  The
    document is the tree below its root element; an element is referred to
    by its position, a list of child indices read from the element up to
    the root (so the parent of [i :: p] is [p], and its previous sibling is
    [(i - 1) :: p]). *)

Record SelectOption := { text : string; value : string }.

Record Element := {
  tagName : string;                        (* [el.tagName], upper case in HTML *)
  attributes : list (string * string);     (* content attributes *)
  innerText : string;                      (* [el.innerText], as rendered *)
  el_type : option string;                 (* [el.type], absent on most elements *)
  el_options : list SelectOption;          (* [el.options] of a select *)
  display : string;                        (* [getComputedStyle(el).display] *)
  visibility : string;                     (* [getComputedStyle(el).visibility] *)
  offsetParent_null : bool                 (* [el.offsetParent === null] *)
}.

#[warnings="-register-all"]
Inductive Node := Elem (e : Element) (children : list Node).

Definition ref := list nat.

Definition node_elem (n : Node) : Element := let 'Elem e _ := n in e.
Definition node_children (n : Node) : list Node := let 'Elem _ cs := n in cs.

(** Walks from the root along child indices given root first. *)
Fixpoint node_down (n : Node) (down : list nat) : option Node :=
  match down with
  | [] => Some n
  | i :: rest =>
      match node_children n !! i with
      | Some c => node_down c rest
      | None => None
      end
  end.

Definition node_at (doc : Node) (r : ref) : option Node := node_down doc (rev r).
Definition elem_at (doc : Node) (r : ref) : option Element := node_elem <$> node_at doc r.

(** The element at [r] and everything below it, in tree order. *)
Fixpoint subtree (n : Node) (r : ref) : list (ref * Element) :=
  match n with
  | Elem e cs =>
      (r, e) ::
      (fix go (cs : list Node) (i : nat) : list (ref * Element) :=
         match cs with
         | [] => []
         | c :: cs' => (subtree c (i :: r) ++ go cs' (S i))%list
         end) cs 0%nat
  end.

(** All elements of the document, in tree order. *)
Definition all_elements (doc : Node) : list (ref * Element) := subtree doc [].

(** The elements strictly below [r], in tree order. *)
Definition descendants (doc : Node) (r : ref) : list (ref * Element) :=
  match node_at doc r with
  | Some n => tail (subtree n r)
  | None => []
  end.

Definition getAttribute (e : Element) (name : string) : option string :=
  snd <$> find (fun kv => String.eqb (fst kv) name) (attributes e).

(** A type selector matches an HTML element by its lower-cased tag name. *)
Definition localName (e : Element) : string := Js.toLowerCase (tagName e).
Definition tag_in (names : list string) (e : Element) : bool :=
  existsb (String.eqb (localName e)) names.

(** Reflected properties. [el.id] is the [id] attribute or the empty
    string; [el.name] likewise on form controls; [el.placeholder] exists
    on inputs and text areas only. *)
Definition el_id (e : Element) : string := default "" (getAttribute e "id").
Definition el_name (e : Element) : string := default "" (getAttribute e "name").
Definition el_placeholder (e : Element) : option string :=
  if tag_in ["input"; "textarea"] e
  then Some (default "" (getAttribute e "placeholder"))
  else None.

Definition parentElement (r : ref) : option ref :=
  match r with
  | [] => None
  | _ :: p => Some p
  end.

Definition previousElementSibling (r : ref) : option ref :=
  match r with
  | S i :: p => Some (i :: p)
  | _ => None
  end.

(** [el.closest(sel)]: the element itself or its nearest ancestor that
    matches. *)
Fixpoint closest (doc : Node) (sel : Element -> bool) (r : ref) : option (ref * Element) :=
  match elem_at doc r with
  | Some e =>
      if sel e then Some (r, e)
      else match r with
           | [] => None
           | _ :: p => closest doc sel p
           end
  | None => None
  end.

(** [document.getElementById(id)] *)
Definition getElementById (doc : Node) (id : string) : option (ref * Element) :=
  if Js.truthy id
  then find (fun re => String.eqb (el_id (snd re)) id) (all_elements doc)
  else None.

(** A value can be spliced between double quotes into an attribute
    selector as it is when it has no quote, backslash or line break.  Any
    other value makes [querySelector] parse something else than the
    intended selector; the lookup is then taken to raise the
    [SyntaxError] of a malformed selector. *)
Definition css_plain_char (c : ascii) : bool :=
  let n := nat_of_ascii c in
  negb ((n =? 34)%nat || (n =? 92)%nat || (n =? 10)%nat || (n =? 12)%nat || (n =? 13)%nat).

Fixpoint css_plain (s : string) : bool :=
  match s with
  | EmptyString => true
  | String c s' => css_plain_char c && css_plain s'
  end.

(** [document.querySelector(`${sel}[${attr}="${v}"]`)], with [sel] given
    as a predicate on elements. *)
Definition querySelector_attr (doc : Node) (sel : Element -> bool) (attr v : string)
  : completion (option (ref * Element)) :=
  if css_plain v
  then Normal (find (fun re => sel (snd re) &&
                               bool_decide (getAttribute (snd re) attr = Some v))
                    (all_elements doc))
  else Throw (SyntaxError "not a valid selector").

(** ** utils/detect.js: [isGreenhouse] *)

Section Greenhouse.

(** The platform's URL parser, as far as [isGreenhouse] uses it: the
    hostname of the parsed URL, or nothing when [new URL(url)] throws. *)
Variable url_hostname : string -> option string.

Definition new_URL_hostname (url : string) : completion string :=
  match url_hostname url with
  | Some h => Normal h
  | None => Throw (TypeError "Invalid URL")
  end.

Definition isGreenhouse (url : string) : completion bool :=
  try_catch
    (cbind (new_URL_hostname url) (fun hostname =>
       Normal (Js.endsWith hostname "greenhouse.io"
               || Js.endsWith hostname "boards.greenhouse.io"
               || Js.endsWith hostname "job-boards.greenhouse.io")))
    (fun _ => Normal false).

End Greenhouse.

(** ** utils/detect.js: [getLabelForElement] *)

Definition is_label (e : Element) : bool := String.eqb (localName e) "label".

(** The repeated test [x && x.innerText && x.innerText.trim()], and the
    value returned under it. *)
Definition label_text_of (o : option (ref * Element)) : option string :=
  match o with
  | Some (_, e) =>
      if Js.truthy (innerText e) && Js.truthy (Js.trim (innerText e))
      then Some (Js.trim (innerText e))
      else None
  | None => None
  end.

(** Strategy 1: [label[for]] *)
Definition strategy_label_for (doc : Node) (e : Element) : completion (option string) :=
  if Js.truthy (el_id e)
  then cbind (querySelector_attr doc is_label "for" (el_id e))
             (fun lab => Normal (label_text_of lab))
  else Normal None.

(** Strategy 2: closest parent label *)
Definition strategy_parent_label (doc : Node) (r : ref) : option string :=
  label_text_of (closest doc is_label r).

(** Strategy 3: [aria-labelledby] *)
Definition strategy_labelledby (doc : Node) (e : Element) : option string :=
  match getAttribute e "aria-labelledby" with
  | Some aria =>
      if Js.truthy aria then label_text_of (getElementById doc aria) else None
  | None => None
  end.

(** Strategy 4: the loop over at most four preceding siblings. *)
Fixpoint strategy_siblings (doc : Node) (prev : option ref) (n : nat) : option string :=
  match n, prev with
  | S n', Some q =>
      match elem_at doc q with
      | Some pe =>
          if is_label pe && Js.truthy (Js.trim (innerText pe))
          then Some (Js.trim (innerText pe))
          else if Js.truthy (innerText pe)
                  && (String.length (Js.trim (innerText pe)) <? 80)%nat
          then Some (Js.trim (innerText pe))
          else strategy_siblings doc (previousElementSibling q) n'
      | None => None
      end
  | _, _ => None
  end.

(** Strategy 5, first half: the placeholder. *)
Definition strategy_placeholder (e : Element) : option string :=
  match el_placeholder e with
  | Some ph =>
      if Js.truthy ph && Js.truthy (Js.trim ph) then Some (Js.trim ph) else None
  | None => None
  end.

(** Strategy 5, second half: the [aria-label] attribute. *)
Definition strategy_aria_label (e : Element) : option string :=
  match getAttribute e "aria-label" with
  | Some a => if Js.truthy a then Some (Js.trim a) else None
  | None => None
  end.

(** Strategy 6: the nearest heading or strong text, at most six levels up. *)
Definition is_heading (e : Element) : bool :=
  tag_in ["h1"; "h2"; "h3"; "h4"; "strong"; "b"] e.

Fixpoint strategy_heading (doc : Node) (node : ref) (n : nat) : option string :=
  match n with
  | S n' =>
      match parentElement node with
      | Some parent =>
          match label_text_of (find (fun re => is_heading (snd re)) (descendants doc parent)) with
          | Some t => Some t
          | None => strategy_heading doc parent n'
          end
      | None => None
      end
  | O => None
  end.

Definition getLabelForElement (doc : Node) (el : ref) : completion string :=
  match elem_at doc el with
  | None => Throw (TypeError "Cannot read properties of null")
  | Some e =>
      cbind (strategy_label_for doc e) (fun s1 =>
      match s1 with
      | Some t => Normal t
      | None =>
      match strategy_parent_label doc el with
      | Some t => Normal t
      | None =>
      match strategy_labelledby doc e with
      | Some t => Normal t
      | None =>
      match strategy_siblings doc (previousElementSibling el) 4 with
      | Some t => Normal t
      | None =>
      match strategy_placeholder e with
      | Some t => Normal t
      | None =>
      match strategy_aria_label e with
      | Some t => Normal t
      | None =>
      match strategy_heading doc el 6 with
      | Some t => Normal t
      | None => Normal "(no-label)"
      end end end end end end end)
  end.

(** ** utils/detect.js: [extractFields] *)

Module Field.
Record t := mk {
  tag : string;
  name : option string;
  id : option string;
  placeholder : option string;
  type : option string;
  aria_label : option string;
  label_text : string
}.
End Field.

Definition is_control (e : Element) : bool := tag_in ["input"; "textarea"; "select"] e.

Definition is_visible (e : Element) : bool :=
  negb (String.eqb (display e) "none")
  && negb (String.eqb (visibility e) "hidden")
  && negb (offsetParent_null e).

Definition describe (doc : Node) (re : ref * Element) : completion Field.t :=
  let '(r, e) := re in
  cbind (getLabelForElement doc r) (fun l =>
    Normal {| Field.tag := Js.toLowerCase (tagName e);
              Field.name := Js.or_null (Some (el_name e));
              Field.id := Js.or_null (Some (el_id e));
              Field.placeholder := Js.or_null (el_placeholder e);
              Field.type := Js.or_null (el_type e);
              Field.aria_label := Js.or_null (getAttribute e "aria-label");
              Field.label_text := l |}).

(** [Array.prototype.map] with a callback that may throw. *)
Fixpoint mapM {A B} (f : A -> completion B) (l : list A) : completion (list B) :=
  match l with
  | [] => Normal []
  | a :: l' => cbind (f a) (fun b => cbind (mapM f l') (fun bs => Normal (b :: bs)))
  end.

(** The key of the duplicate filter:
    [`${f.id || ""}::${f.name || ""}::${f.label_text || ""}`]. *)
Definition field_key (f : Field.t) : string :=
  Js.opt_or (Field.id f) "" ++ "::" ++ Js.opt_or (Field.name f) "" ++ "::"
  ++ Js.or_else (Field.label_text f) "".

(** One turn of the loop over [fields], on the pair ([seen], [out]). *)
Definition dedupe_step (st : gset string * list Field.t) (f : Field.t)
  : gset string * list Field.t :=
  let key := field_key f in
  if decide (key ∈ st.1) then st else ({[key]} ∪ st.1, (st.2 ++ [f])%list).

Definition dedupe (fields : list Field.t) : list Field.t :=
  (fold_left dedupe_step fields (∅, [])).2.

Definition visible_controls (doc : Node) : list (ref * Element) :=
  filter (fun re => is_visible (snd re) = true)
         (filter (fun re => is_control (snd re) = true) (all_elements doc)).

Definition extractFields (doc : Node) : completion (list Field.t) :=
  cbind (mapM (describe doc) (visible_controls doc)) (fun fields =>
    Normal (dedupe fields)).

(** A call from the content script: the page is only read, so the
    document after the call is the one before it. *)
Definition call_extractFields (doc : Node) : Node * completion (list Field.t) :=
  (doc, extractFields doc).

(** ** Effects on the page

    What the autofill code does to the page is recorded in order; the
    properties it reads (tags, attributes, options, layout) are not
    changed by these effects. *)

Record File := { file_bytes : string; file_name : string; file_type : string }.

Inductive Effect :=
| Click (el : ref)                      (* [el.click()] *)
| Focus (el : ref)                      (* [el.focus()] *)
| SetFiles (el : ref) (f : File)        (* [el.files = ...] *)
| SetValue (el : ref) (v : string)      (* [el.value = v] *)
| Dispatch (el : ref) (event : string). (* [el.dispatchEvent(new Event(event, {bubbles: true}))] *)

(** A computation with effects on the page: from the log so far to a
    completion and the extended log. *)
Definition M (A : Type) : Type := list Effect -> completion A * list Effect.

Definition ret {A} (a : A) : M A := fun log => (Normal a, log).
Definition throw {A} (e : JsError) : M A := fun log => (Throw e, log).
Definition lift {A} (c : completion A) : M A := fun log => (c, log).
Definition bind {A B} (m : M A) (k : A -> M B) : M B :=
  fun log =>
    match m log with
    | (Normal a, log') => k a log'
    | (Throw e, log') => (Throw e, log')
    end.
Definition emit (e : Effect) : M unit := fun log => (Normal tt, (log ++ [e])%list).
Definition try_catch_M {A} (m : M A) (h : JsError -> M A) : M A :=
  fun log =>
    match m log with
    | (Normal a, log') => (Normal a, log')
    | (Throw e, log') => h e log'
    end.

#[global] Instance M_ret : MRet M := @ret.
#[global] Instance M_bind : MBind M := fun A B k m => bind m k.

(** The promise an [async] function returns.  The functions called here
    have no [await] in their body, so the body has run, with its
    effects, when the call returns; an exception it raises rejects the
    promise instead of reaching the caller. *)
Inductive Promise (A : Type) :=
| Fulfilled (a : A)
| Rejected (e : JsError).
Arguments Fulfilled {A} a.
Arguments Rejected {A} e.

Definition async_call {A} (body : M A) : M (Promise A) :=
  fun log =>
    match body log with
    | (Normal a, log') => (Normal (Fulfilled a), log')
    | (Throw e, log') => (Normal (Rejected e), log')
    end.

Definition await {A} (p : Promise A) : M A :=
  match p with
  | Fulfilled a => ret a
  | Rejected e => throw e
  end.

(** A promise is an object, and every object is truthy. *)
Definition promise_truthy {A} (p : Promise A) : bool := true.

(** ** utils/autofill.js: [setValue] *)

Record ResumeFile := { rf_data : string; rf_name : string; rf_type : string }.

Definition is_file_input (e : Element) : bool :=
  bool_decide (el_type e = Some "file").

(** Strategy 1: exact text or value, or containment either way. *)
Definition select_exact (valLower : string) (o : SelectOption) : bool :=
  let optText := Js.trim (Js.toLowerCase (Js.or_else (text o) "")) in
  let optValue := Js.trim (Js.toLowerCase (Js.or_else (value o) "")) in
  String.eqb optText valLower || String.eqb optValue valLower
  || Js.includes optText valLower || Js.includes valLower optText.

(** The pattern [new RegExp(`\\b${valNum}\\b`)]: in the text of a number
    a digit, a letter and [-] stand for themselves, [.] for any
    character, and [+] repeats the [e] before it. *)
Fixpoint number_pattern (s : list ascii) : Regex.t :=
  match s with
  | [] => Regex.WordB
  | c :: s' =>
      let atom :=
        if Ascii.eqb c "." then Regex.Chr Regex.dot
        else match s' with
             | p :: _ => if Ascii.eqb p "+" then Regex.Rep (Regex.chr_is c) 1 None
                         else Regex.Chr (Regex.chr_is c)
             | [] => Regex.Chr (Regex.chr_is c)
             end in
      if Ascii.eqb c "+" then number_pattern s'
      else Regex.Seq atom (number_pattern s')
  end.

Definition numPattern (valNum : JsNum.num) : Regex.t :=
  Regex.Seq Regex.WordB (number_pattern (list_ascii_of_string (JsNum.toString valNum))).

(** Strategy 2: numeric ranges. *)
Definition select_range (valNum : JsNum.num) (o : SelectOption) : bool :=
  let optText := Js.toLowerCase (Js.or_else (text o) "") in
  let standalone := Regex.test (numPattern valNum) optText in
  match Regex.match_digits optText with
  | Some numbers =>
      match map JsNum.parseInt numbers with
      | [lo; hi] => JsNum.leb lo valNum && JsNum.leb valNum hi
      | [n] => JsNum.leb (JsNum.abs (JsNum.sub valNum n)) (JsNum.of_Z 2)
      | _ => standalone
      end
  | None => standalone
  end.

Definition includes_word (words : list string) (w : string) : bool :=
  existsb (String.eqb w) words.

(** Strategy 3: word-by-word matching. *)
Definition select_words (valWords : list string) (o : SelectOption) : bool :=
  let optText := Js.toLowerCase (Js.or_else (text o) "") in
  forallb (fun word => Js.includes optText word) valWords
  || existsb (fun optWord => includes_word valWords optWord) (Regex.split_ws optText).

(** Strategy 4: partial match. *)
Definition select_partial (valLower : string) (o : SelectOption) : bool :=
  let optText := Js.toLowerCase (Js.or_else (text o) "") in
  Js.includes optText valLower || Js.includes valLower optText.

Definition is_none {A} (o : option A) : bool :=
  match o with
  | Some _ => false
  | None => true
  end.

(** The option chosen for [val] among [options], if any. *)
Definition select_option (options : list SelectOption) (val : string) : option SelectOption :=
  let valLower := Js.trim (Js.toLowerCase (Js.or_else val "")) in
  let valNum := JsNum.parseFloat valLower in
  let opt := find (select_exact valLower) options in
  let opt :=
    if is_none opt && negb (JsNum.isNaN valNum) && JsNum.ltb (JsNum.of_Z 0) valNum
    then find (select_range valNum) options
    else opt in
  let opt :=
    if is_none opt && (1 <? length (Regex.split_ws valLower))%nat
    then
      let valWords := filter (fun w => (2 < String.length w)%nat) (Regex.split_ws valLower) in
      find (select_words valWords) options
    else opt in
  let opt :=
    if is_none opt then find (select_partial valLower) options else opt in
  opt.

Definition file_of (rf : ResumeFile) (bytes : string) : File :=
  {| file_bytes := bytes;
     file_name := rf_name rf;
     file_type := Js.or_else (rf_type rf) "application/pdf" |}.

Definition setValue (el : option (ref * Element)) (val : string)
    (resumeFile : option ResumeFile) : M bool :=
  try_catch_M
    match el with
    | None => ret false
    | Some (r, e) =>
        if is_file_input e then
          match resumeFile with
          | Some rf =>
              if Js.truthy (rf_data rf) then
                try_catch_M
                  (binaryString ← lift (Base64.atob (rf_data rf));
                   emit (SetFiles r (file_of rf binaryString));;
                   emit (Dispatch r "change");;
                   emit (Dispatch r "input");;
                   ret true)
                  (fun fileErr => emit (Click r);; ret false)
              else emit (Click r);; ret false
          | None => emit (Click r);; ret false
          end
        else if String.eqb (Js.toLowerCase (tagName e)) "select" then
          match select_option (el_options e) val with
          | Some opt =>
              emit (SetValue r (value opt));;
              emit (Dispatch r "change");;
              ret true
          | None => ret false
          end
        else
          emit (Focus r);;
          emit (SetValue r val);;
          emit (Dispatch r "input");;
          emit (Dispatch r "change");;
          ret true
    end
    (fun e => ret false).

(** ** utils/autofill.js: [findElementForField] *)

Definition controls (doc : Node) : list (ref * Element) :=
  filter (fun re => is_control (snd re) = true) (all_elements doc).

(** [String(x)] of a descriptor property that may be [null]. *)
Definition string_of_nullable (o : option string) : string := default "null" o.

(** Step 3 of the search: the first label whose caption contains the
    field's label and that leads to an element, through its [for]
    attribute or as the first control inside it. *)
Fixpoint find_by_label (doc : Node) (label : string) (labels : list (ref * Element))
  : option (ref * Element) :=
  match labels with
  | [] => None
  | (r, lab) :: rest =>
      if Js.includes (Js.toLowerCase (Js.or_else (innerText lab) "")) label then
        let by_for :=
          match getAttribute lab "for" with
          | Some forId => if Js.truthy forId then getElementById doc forId else None
          | None => None
          end in
        match by_for with
        | Some el => Some el
        | None =>
            match find (fun re => is_control (snd re)) (descendants doc r) with
            | Some inside => Some inside
            | None => find_by_label doc label rest
            end
        end
      else find_by_label doc label rest
  end.

Definition candidate_text (e : Element) : string :=
  Js.toLowerCase
    (Js.or_else (el_id e) "" ++ " " ++ Js.or_else (el_name e) "" ++ " "
     ++ Js.opt_or (el_placeholder e) "" ++ " " ++ Js.opt_or (getAttribute e "aria-label") "").

Definition token_score (tokens : list string) (e : Element) : nat :=
  length (filter (fun t => Js.truthy t && Js.includes (candidate_text e) t = true) tokens).

(** One turn of the ranking loop, on the pair ([best], [bestScore]). *)
Definition rank_step (tokens : list string)
    (st : option (ref * Element) * nat) (i : ref * Element) : option (ref * Element) * nat :=
  let score := token_score tokens (snd i) in
  if (st.2 <? score)%nat then (Some i, score) else st.

Definition findElementForField (doc : Node) (fieldObj : Field.t)
  : completion (option (ref * Element)) :=
  let label := Js.toLowerCase (Js.or_else (Field.label_text fieldObj) "") in
  let by_id :=
    match Field.id fieldObj with
    | Some id => if Js.truthy id then getElementById doc id else None
    | None => None
    end in
  match by_id with
  | Some el => Normal (Some el)
  | None =>
  cbind
    match Field.name fieldObj with
    | Some name =>
        if Js.truthy name then querySelector_attr doc (fun _ => true) "name" name
        else Normal None
    | None => Normal None
    end
    (fun byName =>
  match byName with
  | Some el => Normal (Some el)
  | None =>
  let by_placeholder :=
    match Field.placeholder fieldObj with
    | Some ph =>
        if Js.truthy ph
        then find (fun re => Js.includes (Js.toLowerCase (Js.opt_or (el_placeholder (snd re)) ""))
                                         (Js.toLowerCase ph))
                  (controls doc)
        else None
    | None => None
    end in
  match by_placeholder with
  | Some el => Normal (Some el)
  | None =>
  match find_by_label doc label (filter (fun re => is_label (snd re) = true) (all_elements doc)) with
  | Some el => Normal (Some el)
  | None =>
  let tokens := take 4 (Regex.split_ws label) in
  let allInputs := filter (fun re => offsetParent_null (snd re) = false) (controls doc) in
  let '(best, bestScore) := fold_left (rank_step tokens) allInputs (None, 0%nat) in
  match best with
  | Some el => if (0 <? bestScore)%nat then Normal (Some el) else Normal None
  | None => Normal None
  end
  end end end)
  end.

(** ** utils/autofill.js: [autofillFields] *)

Record ParsedResume := { raw_text : option string; filename : option string }.

(** [answersMap[key]]; [None] is [undefined].  Reading a property of a
    missing map throws. *)
Definition answer_at (answersMap : option (gmap string string)) (key : string)
  : completion (option string) :=
  match answersMap with
  | Some m => Normal (m !! key)
  | None => Throw (TypeError "Cannot read properties of undefined")
  end.

(** The body of the loop over [fields], on [filledCount]. *)
Definition fill_field (doc : Node) (answersMap : option (gmap string string))
    (resumeFile : option ResumeFile) (filledCount : nat) (f : Field.t) : M nat :=
  let lbl :=
    Js.or_else (Field.label_text f)
      (Js.opt_or (Field.aria_label f)
        (Js.opt_or (Field.placeholder f)
          (Js.opt_or (Field.name f) (Js.opt_or (Field.id f) "(no-label)")))) in
  direct ← lift (answer_at answersMap lbl);
  candidateAnswer ←
    match direct with
    | Some a => ret a
    | None =>
        trimmed ← lift (answer_at answersMap (Js.trim lbl));
        ret (Js.opt_or trimmed "")
    end;
  el ← lift (findElementForField doc f);
  match el with
  | None => ret filledCount
  | Some (r, e) =>
      if is_file_input e then
        p ← async_call (setValue (Some (r, e)) "" resumeFile);
        ok ← await p;
        ret (if ok : bool then S filledCount else filledCount)
      else if negb (Js.truthy candidateAnswer) then ret filledCount
      else
        let val := Js.trim (Js.or_else candidateAnswer "") in
        if negb (Js.truthy val) then ret filledCount
        else
          p ← async_call (setValue (Some (r, e)) val resumeFile);
          ok ← await p;
          ret (if ok : bool then S filledCount else filledCount)
  end.

Fixpoint for_of {A S} (body : S -> A -> M S) (l : list A) (s : S) : M S :=
  match l with
  | [] => ret s
  | a :: l' => s' ← body s a; for_of body l' s'
  end.

(** [document.getElementById(f.id) || document.querySelector(`[name="${f.name}"]`)] *)
Definition fallback_element (doc : Node) (f : Field.t) : completion (option (ref * Element)) :=
  match getElementById doc (string_of_nullable (Field.id f)) with
  | Some el => Normal (Some el)
  | None => querySelector_attr doc (fun _ => true) "name" (string_of_nullable (Field.name f))
  end.

(** [if (el && setValue(el, v)) filledCount++]: the call is not awaited,
    and the test is on the promise it returns. *)
Definition fallback_set (doc : Node) (f : Field.t) (v : string) (filledCount : nat) : M nat :=
  el ← lift (fallback_element doc f);
  match el with
  | Some re =>
      p ← async_call (setValue (Some re) v None);
      ret (if promise_truthy p then S filledCount else filledCount)
  | None => ret filledCount
  end.

(** The body of the fallback loop; [email] and [phone] are the entries of
    [fallbackMap]. *)
Definition fallback_field (doc : Node) (email phone : option string)
    (filledCount : nat) (f : Field.t) : M nat :=
  let key := Js.toLowerCase (Js.or_else (Field.label_text f) "") in
  c1 ←
    match email with
    | Some v =>
        if Js.includes key "email" && Js.truthy v
        then fallback_set doc f v filledCount
        else ret filledCount
    | None => ret filledCount
    end;
  match phone with
  | Some v =>
      if Js.includes key "phone" && Js.truthy v
      then fallback_set doc f v c1
      else ret c1
  | None => ret c1
  end.

Definition autofillFields (doc : Node) (fields : list Field.t)
    (answersMap : option (gmap string string)) (parsed_resume : option ParsedResume)
    (resumeFile : option ResumeFile) : M bool :=
  try_catch_M
    (filledCount ← for_of (fill_field doc answersMap resumeFile) fields 0%nat;
     filledCount ←
       match parsed_resume with
       | Some pr =>
           if (filledCount =? 0)%nat then
             let text := Js.opt_or (raw_text pr) "" in
             let em := if Js.truthy text then Regex.exec Regex.email text else None in
             let ph := if Js.truthy text then Regex.exec Regex.phone text else None in
             for_of (fallback_field doc em ph) fields filledCount
           else ret filledCount
       | None => ret filledCount
       end;
     ret (0 <? filledCount)%nat)
    (fun e => ret false).

(** * Part III: the service worker and the popup *)

(** ** background.js *)

Module Background.

(** [2 * 60 * 1000] *)
Definition REQUEST_TIMEOUT : Z := 2 * 60 * 1000.

(** A stored request record, by its [status]. *)
Inductive RequestState :=
| Processing (startTime : Z) (jd_url : string)
| Complete (data : JsValue) (completedTime elapsed : Z)
| Error (error : JsValue) (completedTime elapsed : Z).

Inductive Status := processing | complete | error.

Definition status (st : RequestState) : Status :=
  match st with
  | Processing _ _ => processing
  | Complete _ _ _ => complete
  | Error _ _ _ => error
  end.

(** What [fetchWithTimeout] returns. *)
Record FetchResult := {
  ok : bool;
  res_status : option Z;
  res_data : JsValue;
  res_error : option string
}.

(** A call of [handleResumeScoreRequest] suspended in [fetchWithTimeout]:
    either [fetch] is pending and the timer is armed, or the response
    has arrived, the timer is cleared and the body is being read. *)
Inductive Call :=
| AwaitFetch (startTime : Z)
| AwaitBody (startTime : Z) (ok : bool) (status : Z).

Definition call_start (c : Call) : Z :=
  match c with
  | AwaitFetch t => t
  | AwaitBody t _ _ => t
  end.

(** The service worker: the request records of [chrome.storage.local]
    (the entry under [request_<id>] is kept under [id]), the
    [pendingRequests] map, whether the keep-alive interval is set, and
    the suspended calls. *)
Record State := {
  storage : gmap string RequestState;
  pendingRequests : gmap string Z;
  keepAlive : bool;
  inflight : gmap string Call
}.

Definition init : State :=
  {| storage := ∅; pendingRequests := ∅; keepAlive := false; inflight := ∅ |}.

(** What the worker receives and what happens to it. *)
Inductive Event :=
| BG_RESUME_SCORE (requestId : string) (jd_url : string) (now : Z)
| CHECK_REQUEST_STATUS (requestId : string) (now : Z)
| CANCEL_REQUEST (requestId : string)
| FetchResolved (requestId : string) (ok : bool) (status : Z) (now : Z)
| BodyRead (requestId : string) (data : JsValue) (now : Z)
| Rejected (requestId : string) (name message : string) (now : Z)
| TimerFired (requestId : string) (now : Z)
| PendingRemoved (requestId : string)   (* the popup's [checkPendingRequest] removes the record *)
| WorkerTerminated
| BrowserStartup.

(** What the worker sends. *)
Inductive Output :=
| Started (requestId : string) (timeout : Z)
| StatusProcessing (elapsed : Z)
| StatusComplete (data : JsValue) (elapsed : Z)
| StatusError (error : JsValue) (elapsed : Z)
| StatusNotFound
| Cancelled
| SCORE_RESULT (requestId : string) (ok : bool).

(** The [catch] branch of [fetchWithTimeout]. *)
Definition fetch_failure (name message : string) (startTime now : Z) : FetchResult :=
  let elapsed := round_seconds (now - startTime) in
  if String.eqb name "AbortError"
  then {| ok := false; res_status := None; res_data := VUndefined;
          res_error := Some ("Request timed out after " ++ show_int elapsed ++ " seconds") |}
  else {| ok := false; res_status := None; res_data := VUndefined;
          res_error := Some (Js.or_else message name) |}.

Definition error_value (o : option string) : JsValue :=
  match o with
  | Some s => VString s
  | None => VUndefined
  end.

(** [handleResumeScoreRequest] from the return of [fetchWithTimeout] on:
    the record written, the [finally] block, and the push to the popup. *)
Definition finish (s : State) (requestId : string) (startTime : Z) (res : FetchResult)
    (now : Z) : State * list Output :=
  let elapsed := round_seconds (now - startTime) in
  let record :=
    if negb (ok res)
    then Error (value_or (res_data res) (value_or (error_value (res_error res))
                                                  (VString "Unknown error")))
               now elapsed
    else Complete (res_data res) now elapsed in
  ({| storage := <[requestId := record]> (storage s);
      pendingRequests := delete requestId (pendingRequests s);
      keepAlive := false;
      inflight := delete requestId (inflight s) |},
   [SCORE_RESULT requestId (ok res)]).

(** One event at a time.  A message handler is taken to run to its
    response as one step, with no other handler between its storage
    read and its storage write (the storage operations are served in
    the order they are issued, and status checks for one request do not
    overlap); the clock readings of the listener and of the call it
    starts are one instant.  An event for a call that is not suspended
    at that point does nothing. *)
Definition step (s : State) (ev : Event) : State * list Output :=
  match ev with
  | BG_RESUME_SCORE requestId jd_url now =>
      ({| storage := <[requestId := Processing now jd_url]> (storage s);
          pendingRequests := <[requestId := now]> (pendingRequests s);
          keepAlive := true;
          inflight := <[requestId := AwaitFetch now]> (inflight s) |},
       [Started requestId REQUEST_TIMEOUT])
  | CHECK_REQUEST_STATUS requestId now =>
      match storage s !! requestId with
      | None =>
          match pendingRequests s !! requestId with
          | Some startTime => (s, [StatusProcessing (now - startTime)])
          | None => (s, [StatusNotFound])
          end
      | Some (Complete data _ elapsed) =>
          ({| storage := delete requestId (storage s);
              pendingRequests := pendingRequests s;
              keepAlive := keepAlive s;
              inflight := inflight s |},
           [StatusComplete data elapsed])
      | Some (Error err _ elapsed) =>
          ({| storage := delete requestId (storage s);
              pendingRequests := pendingRequests s;
              keepAlive := keepAlive s;
              inflight := inflight s |},
           [StatusError err elapsed])
      | Some (Processing startTime _) => (s, [StatusProcessing (now - startTime)])
      end
  | CANCEL_REQUEST requestId =>
      ({| storage := delete requestId (storage s);
          pendingRequests := delete requestId (pendingRequests s);
          keepAlive := false;
          inflight := inflight s |},
       [Cancelled])
  | FetchResolved requestId ok status now =>
      match inflight s !! requestId with
      | Some (AwaitFetch startTime) =>
          ({| storage := storage s;
              pendingRequests := pendingRequests s;
              keepAlive := keepAlive s;
              inflight := <[requestId := AwaitBody startTime ok status]> (inflight s) |}, [])
      | _ => (s, [])
      end
  | BodyRead requestId data now =>
      match inflight s !! requestId with
      | Some (AwaitBody startTime ok status) =>
          finish s requestId startTime
            {| ok := ok; res_status := Some status; res_data := data; res_error := None |} now
      | _ => (s, [])
      end
  | Rejected requestId name message now =>
      match inflight s !! requestId with
      | Some c => finish s requestId (call_start c)
                    (fetch_failure name message (call_start c) now) now
      | None => (s, [])
      end
  | TimerFired requestId now =>
      match inflight s !! requestId with
      | Some (AwaitFetch startTime) =>
          finish s requestId startTime
            (fetch_failure "AbortError" "The user aborted a request." startTime now) now
      | _ => (s, [])
      end
  | PendingRemoved requestId =>
      ({| storage := delete requestId (storage s);
          pendingRequests := pendingRequests s;
          keepAlive := keepAlive s;
          inflight := inflight s |}, [])
  | WorkerTerminated =>
      ({| storage := storage s; pendingRequests := ∅; keepAlive := false; inflight := ∅ |}, [])
  | BrowserStartup =>
      ({| storage := ∅; pendingRequests := ∅; keepAlive := false; inflight := ∅ |}, [])
  end.

(** The state after a sequence of events. *)
Definition exec (s : State) (evs : list Event) : State :=
  fold_left (fun s ev => (step s ev).1) evs s.


End Background.

(** The course of one call of [fetchWithTimeout], as the network decides
    it: [fetch] races against the timer set for [REQUEST_TIMEOUT]. *)
Module Network.




End Network.

(** ** popup.js: the polling controller *)

Module Popup.

Definition REQUEST_TIMEOUT : Z := 2 * 60 * 1000.

(** What the status area shows. *)
Inductive View :=
| Blank
| Loading (elapsed remaining : string)
| TimedOut            (* "Request timed out after 2 minutes. Please try again." *)
| Failed (error : JsValue)   (* "Score request failed: ..." *)
| NotFound            (* "Request not found. Please try again." *)
| Score (data : JsValue)
| RequestCancelled.

Record State := {
  currentRequestId : option string;
  pollingInterval : bool;          (* the interval is set *)
  pollingStartTime : option Z;
  view : View;
  last_score_result : option JsValue
}.

Definition formatTime (ms : Z) : string :=
  let seconds := (ms / 1000)%Z in
  let minutes := (seconds / 60)%Z in
  let remainingSeconds := Z.rem seconds 60 in
  if (0 <? minutes)%Z
  then show_int minutes ++ "m " ++ show_int remainingSeconds ++ "s"
  else show_int seconds ++ "s".

Definition startPolling (p : State) (requestId : string) (now : Z) : State :=
  {| currentRequestId := Some requestId; pollingInterval := true;
     pollingStartTime := Some now; view := view p;
     last_score_result := last_score_result p |}.

Definition stopPolling (p : State) : State :=
  {| currentRequestId := None; pollingInterval := false; pollingStartTime := None;
     view := view p; last_score_result := last_score_result p |}.

Definition show (p : State) (v : View) : State :=
  {| currentRequestId := currentRequestId p; pollingInterval := pollingInterval p;
     pollingStartTime := pollingStartTime p; view := v;
     last_score_result := last_score_result p |}.

(** [Date.now() - pollingStartTime] *)
Definition elapsed_at (p : State) (now : Z) : Z := (now - default 0 (pollingStartTime p))%Z.

(** [checkRequestStatus], up to the message it sends: the new state, and
    the request id asked for when a [CHECK_REQUEST_STATUS] goes out. *)
Definition checkRequestStatus (p : State) (now : Z) : State * option string :=
  match currentRequestId p with
  | None => (p, None)
  | Some requestId =>
      if (REQUEST_TIMEOUT <=? elapsed_at p now)%Z
      then (show (stopPolling p) TimedOut, None)
      else (p, Some requestId)
  end.

(** [checkRequestStatus], from the response on; [elapsed] was computed
    before the message was sent. *)
Definition on_response (p : State) (elapsed : Z) (response : Background.Output) : State :=
  match response with
  | Background.StatusProcessing _ =>
      show p (Loading (formatTime elapsed) (formatTime (REQUEST_TIMEOUT - elapsed)))
  | Background.StatusComplete data _ =>
      let p' := stopPolling p in
      {| currentRequestId := currentRequestId p'; pollingInterval := pollingInterval p';
         pollingStartTime := pollingStartTime p'; view := Score data;
         last_score_result := Some data |}
  | Background.StatusError err _ =>
      show (stopPolling p) (Failed (value_or err (VString "Unknown error")))
  | Background.StatusNotFound => show (stopPolling p) NotFound
  | _ => stopPolling p
  end.

End Popup.

(** * Part IV: vocabulary of the statements *)


(** The duplicate filter as a recursive function: the descriptors whose
    key is neither in [seen] nor carried by an earlier descriptor. *)
Fixpoint first_seen (seen : gset string) (fs : list Field.t) : list Field.t :=
  match fs with
  | [] => []
  | f :: fs' =>
      if decide (field_key f ∈ seen) then first_seen seen fs'
      else f :: first_seen ({[field_key f]} ∪ seen) fs'
  end.

(** The identity of a descriptor, and the key as a function of it. *)
Definition identity (f : Field.t) : option string * option string * string :=
  (Field.id f, Field.name f, Field.label_text f).

Definition key_of (i : option string * option string * string) : string :=
  let '(id, name, label) := i in
  Js.opt_or id "" ++ "::" ++ Js.opt_or name "" ++ "::" ++ Js.or_else label "".

(** The number of fields a run has filled: the files attached and the
    values set, as recorded in the log. *)
Definition is_fill (e : Effect) : bool :=
  match e with
  | SetFiles _ _ | SetValue _ _ => true
  | _ => false
  end.

Definition fills (log : list Effect) : nat := length (filter (fun e => is_fill e = true) log).

(** The candidate of a chain of strategies: the first there is. *)
Fixpoint first_candidate {A} (l : list (option A)) : option A :=
  match l with
  | [] => None
  | Some a :: _ => Some a
  | None :: l' => first_candidate l'
  end.

(** What each strategy proposes for [val] among [options], its guard
    included. *)
Definition valLower_of (val : string) : string := Js.trim (Js.toLowerCase (Js.or_else val "")).

Definition candidate_exact (options : list SelectOption) (val : string) : option SelectOption :=
  find (select_exact (valLower_of val)) options.

Definition candidate_range (options : list SelectOption) (val : string) : option SelectOption :=
  let valNum := JsNum.parseFloat (valLower_of val) in
  if negb (JsNum.isNaN valNum) && JsNum.ltb (JsNum.of_Z 0) valNum
  then find (select_range valNum) options
  else None.

Definition candidate_words (options : list SelectOption) (val : string) : option SelectOption :=
  let words := Regex.split_ws (valLower_of val) in
  if (1 <? length words)%nat
  then find (select_words (filter (fun w => (2 < String.length w)%nat) words)) options
  else None.

Definition candidate_partial (options : list SelectOption) (val : string) : option SelectOption :=
  find (select_partial (valLower_of val)) options.

Import Background.



Definition terminal (st : RequestState) : Prop := status st <> processing.




(** * Part V: sample pages *)

(** ** Sample documents *)

Definition element (tagName : string) (attributes : list (string * string))
    (innerText : string) : Element :=
  {| tagName := tagName; attributes := attributes; innerText := innerText;
     el_type := None; el_options := [];
     display := "block"; visibility := "visible"; offsetParent_null := false |}.

Definition input_text (attributes : list (string * string)) : Element :=
  {| tagName := "INPUT"; attributes := attributes; innerText := "";
     el_type := Some "text"; el_options := [];
     display := "inline-block"; visibility := "visible"; offsetParent_null := false |}.

Definition page (body : list Node) : Node :=
  Elem (element "HTML" [] "") [Elem (element "BODY" [] "") body].


(** [<form><div hidden> </div><input placeholder="City"></form>]: the hidden
    block is not rendered, so its [innerText] is its text content, a
    single space. *)
Definition doc_blank_sibling : Node :=
  page [Elem (element "FORM" [] "")
          [Elem {| tagName := "DIV"; attributes := [("hidden", "")]; innerText := " ";
                   el_type := None; el_options := [];
                   display := "none"; visibility := "visible";
                   offsetParent_null := true |} [];
           Elem (input_text [("placeholder", "City")]) []]].

(** Two inputs whose (id, name, label) differ while the joined keys agree:
    [<input id="a::b">] and [<input id="a" name="b::">]. *)
Definition doc_key_clash : Node :=
  page [Elem (element "FORM" [] "")
          [Elem (input_text [("id", "a::b")]) [];
           Elem (input_text [("id", "a"); ("name", "b::")]) []]].

(** ** Sample forms *)

Definition option_of (t : string) : SelectOption := {| text := t; value := t |}.

Definition select_one (attributes : list (string * string)) (options : list SelectOption)
  : Element :=
  {| tagName := "SELECT"; attributes := attributes; innerText := "";
     el_type := Some "select-one"; el_options := options;
     display := "inline-block"; visibility := "visible"; offsetParent_null := false |}.

Definition input_file (attributes : list (string * string)) : Element :=
  {| tagName := "INPUT"; attributes := attributes; innerText := "";
     el_type := Some "file"; el_options := [];
     display := "inline-block"; visibility := "visible"; offsetParent_null := false |}.

Definition years_options : list SelectOption :=
  [option_of "0-2 years"; option_of "3-5 years"; option_of "5-7 years"; option_of "7+ years"].

(** [<label for="ptype">Phone type</label>
     <select id="ptype"><option>Mobile</option><option>Home</option></select>] *)
Definition doc_phone_type : Node :=
  page [Elem (element "FORM" [] "Phone type")
          [Elem (element "LABEL" [("for", "ptype")] "Phone type") [];
           Elem (select_one [("id", "ptype")] [option_of "Mobile"; option_of "Home"]) []]].

Definition field_phone_type : Field.t :=
  Field.mk "select" None (Some "ptype") None (Some "select-one") None "Phone type".

Definition resume_jane : ParsedResume :=
  {| raw_text := Some "Jane Doe 5551234567"; filename := Some "jane.pdf" |}.



(** * Part V, continued: further code of the same files *)

(** ** utils/autofill.js: the label of a field

    [f.label_text || f.aria_label || f.placeholder || f.name || f.id || "(no-label)"],
    the expression under which [autofillFields] looks an answer up and
    under which the content script sends the field to the backend. *)
Definition field_label (f : Field.t) : string :=
  Js.or_else (Field.label_text f)
    (Js.opt_or (Field.aria_label f)
      (Js.opt_or (Field.placeholder f)
        (Js.opt_or (Field.name f) (Js.opt_or (Field.id f) "(no-label)")))).

(** ** Further sample forms *)

(** [<label for="email">Email</label><input type="text" id="email">
     <label for="cv">Resume</label><input type="file" id="cv">] *)
Definition doc_contact : Node :=
  page [Elem (element "FORM" [] "Email Resume")
          [Elem (element "LABEL" [("for", "email")] "Email") [];
           Elem (input_text [("id", "email")]) [];
           Elem (element "LABEL" [("for", "cv")] "Resume") [];
           Elem (input_file [("id", "cv")]) []]].

Definition field_email : Field.t :=
  Field.mk "input" None (Some "email") None (Some "text") None "Email".

Definition field_cv : Field.t :=
  Field.mk "input" None (Some "cv") None (Some "file") None "Resume".

(** [<input name="street"><input name="home_city"><input name="city2">], no
    labels: the field "Home city" is found by its tokens. *)
Definition doc_ranking : Node :=
  page [Elem (element "FORM" [] "")
          [Elem (input_text [("name", "street")]) [];
           Elem (input_text [("name", "home_city")]) [];
           Elem (input_text [("name", "city2")]) []]].

Definition field_city : Field.t :=
  Field.mk "input" None None None (Some "text") None "Home city".

(** The state of the ranking loop of [findElementForField] after the
    candidates [seen]. *)
Definition ranked (tokens : list string) (seen : list (ref * Element))
    (st : option (ref * Element) * nat) : Prop :=
  (forall x, x ∈ seen -> (token_score tokens x.2 <= st.2)%nat) /\
  match st.1 with
  | Some b =>
      (0 < st.2)%nat /\
      exists l1 l2, seen = (l1 ++ b :: l2)%list /\ token_score tokens b.2 = st.2 /\
                    forall x, x ∈ l1 -> (token_score tokens x.2 < st.2)%nat
  | None => st.2 = 0%nat
  end.

(** ** Vocabulary for the worker and the popup *)

(** The request an event is about, if it is about one. *)
Definition about (ev : Event) : option string :=
  match ev with
  | BG_RESUME_SCORE r _ _ | CHECK_REQUEST_STATUS r _ | CANCEL_REQUEST r
  | FetchResolved r _ _ _ | BodyRead r _ _ | Rejected r _ _ _ | TimerFired r _
  | PendingRemoved r => Some r
  | WorkerTerminated | BrowserStartup => None
  end.

(** The events that take the record of [rid] away or replace it by hand:
    a new request under the same id, a cancel, a removal by the popup,
    the purge at browser start. *)
Definition displaces (rid : string) (ev : Event) : Prop :=
  match ev with
  | BG_RESUME_SCORE r _ _ | CANCEL_REQUEST r | PendingRemoved r => r = rid
  | BrowserStartup => True
  | _ => False
  end.

(** Every stored error is truthy. *)
Definition errors_truthy (s : State) : Prop :=
  forall rid err completedTime elapsed,
    storage s !! rid = Some (Error err completedTime elapsed) -> value_truthy err = true.

(** ** popup.js and background.js: one tick of the poller

    The popup's [checkRequestStatus] with the worker's answer to the
    message it sends, the clock read once.  The message is taken to be
    delivered and answered. *)
Definition poll (p : Popup.State) (s : State) (now : Z) : Popup.State * State :=
  match Popup.checkRequestStatus p now with
  | (p', Some requestId) =>
      let '(s', out) := step s (CHECK_REQUEST_STATUS requestId now) in
      (match out with
       | [response] => Popup.on_response p' (Popup.elapsed_at p now) response
       | _ => p'
       end, s')
  | (p', None) => (p', s)
  end.


(** ** background.js: what [handleResumeScoreRequest] returns

    The value the call resolves to, which the listener pushes to the
    popup in a [SCORE_RESULT] message; an absent property is
    [VUndefined].  As in [finish], the [catch] branch of the function is
    left out: [fetchWithTimeout] and [saveRequestState] catch what is
    thrown in them. *)
Record Pushed := {
  push_ok : bool;
  push_status : option Z;
  push_data : JsValue;
  push_error : JsValue
}.

Definition returned (res : FetchResult) : Pushed :=
  if negb (ok res)
  then {| push_ok := false; push_status := res_status res;
          push_data := value_or (res_data res) (error_value (res_error res));
          push_error := VUndefined |}
  else {| push_ok := true; push_status := res_status res;
          push_data := res_data res; push_error := VUndefined |}.

Section Display.

(** Whether [displayScoreResult] returns for the data it is given (it
    throws on data it cannot read, such as [null]). *)
Variable displays : JsValue -> bool.

(** ** popup.js: the listener for the [SCORE_RESULT] push *)
Definition on_push (p : Popup.State) (requestId : string) (result : Pushed) : Popup.State :=
  if decide (Popup.currentRequestId p = Some requestId) then
    let p' := Popup.stopPolling p in
    if push_ok result then
      {| Popup.currentRequestId := Popup.currentRequestId p';
         Popup.pollingInterval := Popup.pollingInterval p';
         Popup.pollingStartTime := Popup.pollingStartTime p';
         Popup.view := if displays (push_data result)
                       then Popup.Score (push_data result) else Popup.view p';
         Popup.last_score_result := Some (push_data result) |}
    else Popup.show p' (Popup.Failed (value_or (push_error result) (VString "Unknown error")))
  else p.

(** ** popup.js: [checkPendingRequest]

    The entries of the storage under [request_] keys, in the order
    [Object.keys] gives them, are gone through until one is handled: a
    processing request younger than the timeout is resumed, an older
    one is removed and the search goes on, a complete or failed one is
    shown and removed.  The result is what was found and the keys
    removed; the clock is read once. *)
Inductive Pending :=
| NoPending                                              (* returns [false] *)
| Resumed (requestId : string) (startTime : Z) (elapsed remaining : string)
| FoundComplete (requestId : string) (data : JsValue)
| FoundError (requestId : string) (err : JsValue)
| DisplayFailed (requestId : string).                    (* caught; returns [false] *)

Fixpoint checkPendingRequest (entries : list (string * RequestState)) (now : Z)
  : Pending * list string :=
  match entries with
  | [] => (NoPending, [])
  | (requestId, state) :: rest =>
      match state with
      | Processing startTime _ =>
          let elapsed := (now - startTime)%Z in
          if (elapsed <? Popup.REQUEST_TIMEOUT)%Z
          then (Resumed requestId startTime (Popup.formatTime elapsed)
                        (Popup.formatTime (Popup.REQUEST_TIMEOUT - elapsed)), [])
          else let '(found, removed) := checkPendingRequest rest now in
               (found, requestId :: removed)
      | Complete data _ _ =>
          if displays data then (FoundComplete requestId data, [requestId])
          else (DisplayFailed requestId, [])
      | Error err _ _ => (FoundError requestId err, [requestId])
      end
  end.

End Display.

(** What [checkPendingRequest] returns. *)
Definition has_pending (found : Pending) : bool :=
  match found with
  | NoPending | DisplayFailed _ => false
  | _ => true
  end.

(** The request a finding is about. *)
Definition pending_id (found : Pending) : option string :=
  match found with
  | NoPending => None
  | Resumed r _ _ _ | FoundComplete r _ | FoundError r _ | DisplayFailed r => Some r
  end.

(** The record a finding consumes. *)
Definition taken (found : Pending) : list string :=
  match found with
  | FoundComplete r _ | FoundError r _ => [r]
  | _ => []
  end.

(** The polling state after a request was resumed. *)
Definition resumed_state (p : Popup.State) (requestId : string) (startTime : Z)
    (elapsed remaining : string) : Popup.State :=
  {| Popup.currentRequestId := Some requestId;
     Popup.pollingInterval := true;
     Popup.pollingStartTime := Some startTime;
     Popup.view := Popup.Loading elapsed remaining;
     Popup.last_score_result := Popup.last_score_result p |}.

(** A processing record older than the timeout at [now]. *)
Definition expired (now : Z) (st : RequestState) : Prop :=
  match st with
  | Processing startTime _ => (Popup.REQUEST_TIMEOUT <= now - startTime)%Z
  | _ => False
  end.

(** ** The platform: [btoa]

    The argument is a binary string, one character per byte. *)
Definition base64_char (n : N) : ascii :=
  if (n <? 26)%N then ascii_of_N (n + 65)
  else if (n <? 52)%N then ascii_of_N (n + 71)
  else if (n <? 62)%N then ascii_of_N (n - 4)
  else if (n =? 62)%N then "+"%char
  else "/"%char.

Fixpoint base64_encode (l : list ascii) : list ascii :=
  match l with
  | a :: b :: c :: r =>
      let x := N_of_ascii a in
      let y := N_of_ascii b in
      let z := N_of_ascii c in
      base64_char (x / 4) :: base64_char ((x mod 4) * 16 + y / 16)
      :: base64_char ((y mod 16) * 4 + z / 64) :: base64_char (z mod 64)
      :: base64_encode r
  | [a; b] =>
      let x := N_of_ascii a in
      let y := N_of_ascii b in
      [base64_char (x / 4); base64_char ((x mod 4) * 16 + y / 16);
       base64_char ((y mod 16) * 4); "="%char]
  | [a] =>
      let x := N_of_ascii a in
      [base64_char (x / 4); base64_char ((x mod 4) * 16); "="%char; "="%char]
  | [] => []
  end.

Definition btoa (s : string) : string :=
  string_of_list_ascii (base64_encode (list_ascii_of_string s)).

(** The encoding without its padding, and the padding. *)
Fixpoint base64_body (l : list ascii) : list ascii :=
  match l with
  | a :: b :: c :: r =>
      let x := N_of_ascii a in
      let y := N_of_ascii b in
      let z := N_of_ascii c in
      base64_char (x / 4) :: base64_char ((x mod 4) * 16 + y / 16)
      :: base64_char ((y mod 16) * 4 + z / 64) :: base64_char (z mod 64)
      :: base64_body r
  | [a; b] =>
      let x := N_of_ascii a in
      let y := N_of_ascii b in
      [base64_char (x / 4); base64_char ((x mod 4) * 16 + y / 16);
       base64_char ((y mod 16) * 4)]
  | [a] =>
      let x := N_of_ascii a in
      [base64_char (x / 4); base64_char ((x mod 4) * 16)]
  | [] => []
  end.

Fixpoint base64_padding (l : list ascii) : list ascii :=
  match l with
  | _ :: _ :: _ :: r => base64_padding r
  | [_; _] => ["="%char]
  | [_] => ["="%char; "="%char]
  | [] => []
  end.

(** ** popup.js: [escapeHtml]

    The text is set as the content of an element and read back as
    markup: the ampersand, the angle brackets and the no-break space
    (code unit 160) come back as character references. *)
Definition escape_char (c : ascii) : string :=
  if Ascii.eqb c "&" then "&amp;"
  else if Ascii.eqb c "<" then "&lt;"
  else if Ascii.eqb c ">" then "&gt;"
  else if (nat_of_ascii c =? 160)%nat then "&nbsp;"
  else String c "".

Fixpoint escape_text (s : string) : string :=
  match s with
  | EmptyString => ""
  | String c s' => escape_char c ++ escape_text s'
  end.

Definition escapeHtml (text : string) : string :=
  if negb (Js.truthy text) then "" else escape_text text.

(** A character that [escapeHtml] leaves as it is. *)
Definition plain_char (c : ascii) : bool :=
  negb (Ascii.eqb c "&") && negb (Ascii.eqb c "<") && negb (Ascii.eqb c ">")
  && negb (nat_of_ascii c =? 160)%nat.

Fixpoint plain_text (s : string) : bool :=
  match s with
  | EmptyString => true
  | String c s' => plain_char c && plain_text s'
  end.

(** ** popup.js: the upload handler, from the bytes of the chosen file
    to the [resume_file] it stores *)

Record UploadedFile := { f_name : string; f_type : string; f_bytes : list ascii }.

Definition chunkSize : nat := 1024.

(** The loop over the chunks: [fuel] bounds the number of turns. *)
Fixpoint binaryParts (fuel : nat) (bytes : list ascii) : list string :=
  match fuel with
  | O => []
  | S fuel' =>
      match bytes with
      | [] => []
      | _ => string_of_list_ascii (take chunkSize bytes)
             :: binaryParts fuel' (drop chunkSize bytes)
      end
  end.

(** [parts.join('')] *)
Definition join (parts : list string) : string := foldr String.append "" parts.

Definition binary_string (bytes : list ascii) : string :=
  join (binaryParts (length bytes) bytes).

Definition resume_file_of (f : UploadedFile) : ResumeFile :=
  {| rf_data := btoa (binary_string (f_bytes f));
     rf_name := escapeHtml (f_name f);
     rf_type := f_type f |}.

(** ** utils/autofill.js: [fallbackFill]

    The function has no [try]: what is thrown inside it leaves it.
    Besides the errors of the script there is the one the page throws
    when a file control is given a value that is not empty. *)
Inductive DomError :=
| ScriptError (e : JsError)
| InvalidStateError.

(** [el.value = v; el.dispatchEvent(new Event('input', { bubbles: true }))]
    on the element found for the field, with [v] not empty. *)
Definition fallbackFill_set (doc : Node) (f : Field.t) (v : string) (log : list Effect)
  : option DomError * list Effect :=
  match fallback_element doc f with
  | Throw e => (Some (ScriptError e), log)
  | Normal None => (None, log)
  | Normal (Some (r, e)) =>
      if is_file_input e then (Some InvalidStateError, log)
      else (None, (log ++ [SetValue r v; Dispatch r "input"])%list)
  end.

(** The body of the loop; [email] and [phone] are the entries of [mapping]. *)
Definition fallbackFill_field (doc : Node) (email phone : option string) (f : Field.t)
    (log : list Effect) : option DomError * list Effect :=
  let key := Js.toLowerCase (Js.or_else (Field.label_text f) "") in
  let first :=
    match email with
    | Some v =>
        if Js.includes key "email" && Js.truthy v then fallbackFill_set doc f v log
        else (None, log)
    | None => (None, log)
    end in
  match first with
  | (Some err, log1) => (Some err, log1)
  | (None, log1) =>
      match phone with
      | Some v =>
          if Js.includes key "phone" && Js.truthy v then fallbackFill_set doc f v log1
          else (None, log1)
      | None => (None, log1)
      end
  end.

Fixpoint fallbackFill_loop (doc : Node) (email phone : option string)
    (fields : list Field.t) (log : list Effect) : option DomError * list Effect :=
  match fields with
  | [] => (None, log)
  | f :: rest =>
      match fallbackFill_field doc email phone f log with
      | (Some err, log1) => (Some err, log1)
      | (None, log1) => fallbackFill_loop doc email phone rest log1
      end
  end.

(** The text [fallbackFill] and the fallback pass of [autofillFields]
    search, and what they take from it. *)
Definition resume_text (parsed_resume : option ParsedResume) : string :=
  match parsed_resume with
  | Some pr => Js.opt_or (raw_text pr) ""
  | None => ""
  end.

Definition first_email (text : string) : option string :=
  if Js.truthy text then Regex.exec Regex.email text else None.

Definition first_phone (text : string) : option string :=
  if Js.truthy text then Regex.exec Regex.phone text else None.

Definition fallbackFill (doc : Node) (fields : list Field.t)
    (parsed_resume : option ParsedResume) (log : list Effect)
  : option DomError * list Effect :=
  let text := resume_text parsed_resume in
  fallbackFill_loop doc (first_email text) (first_phone text) fields log.

(** The effects [fallbackFill] may have: a value taken from the resume
    written to an element, and an [input] event. *)
Definition fallback_effect (email phone : option string) (eff : Effect) : Prop :=
  match eff with
  | SetValue _ v => (email = Some v \/ phone = Some v) /\ v <> ""
  | Dispatch _ event => event = "input"
  | _ => False
  end.

(** What a run of the loop does to the count and to the log: the log
    only grows, and when the run completes the count has grown by the
    number of fields set. *)
Definition counted (filledCount : nat) (log : list Effect)
    (res : completion nat * list Effect) : Prop :=
  exists added, res.2 = (log ++ added)%list /\
    match res.1 with
    | Normal c => c = (filledCount + fills added)%nat
    | Throw _ => True
    end.

(** * Part VI: lemmas and theorems *)

(** ** The runtime on small inputs *)

Example email_in_text :
  Regex.exec Regex.email "Jane Doe <jane.doe@mail.example.org>, tel +1 555-1234567"
  = Some "jane.doe@mail.example.org".
Proof. reflexivity. Qed.

Example phone_in_text :
  Regex.exec Regex.phone "Jane Doe <jane.doe@mail.example.org>, tel +1 555-1234567"
  = Some "555-1234567".
Proof. reflexivity. Qed.

Example split_on_spaces : Regex.split_ws " a  b " = [""; "a"; "b"; ""].
Proof. reflexivity. Qed.

Example numbers_read_and_written :
  map (fun s => JsNum.toString (JsNum.parseFloat s))
      ["7"; "7+"; "5-7 years"; ".5"; "5.e3"; "1e21"; "1e-7"; "0.1"; "9007199254740993";
       "a@b.co"; "infinity"; "-0"]
  = ["7"; "7"; "5"; "0.5"; "5000"; "1e+21"; "1e-7"; "0.1"; "9007199254740992";
     "NaN"; "NaN"; "0"].
Proof. vm_compute. reflexivity. Qed.

Example atob_hello : Base64.atob "SGVsbG8sIHdvcmxkIQ==" = Normal "Hello, world!".
Proof. reflexivity. Qed.

Example atob_rejects : Base64.atob "SGVsb" = Throw InvalidCharacterError.
Proof. reflexivity. Qed.

Example select_by_range :
  select_option [option_of "0-2 years"; option_of "3-5 years"; option_of "6-8 years";
                 option_of "9+ years"] "7"
  = Some (option_of "6-8 years").
Proof. vm_compute. reflexivity. Qed.

Example select_none :
  select_option [option_of "Mobile"; option_of "Home"] "5551234567" = None.
Proof. vm_compute. reflexivity. Qed.

(** ** Facts on suffixes *)

Lemma endsWith_nil (suf : string) :
  Js.endsWith "" suf = String.eqb "" suf.
Proof. unfold Js.endsWith. apply orb_false_r. Qed.

Lemma endsWith_cons (c : ascii) (s suf : string) :
  Js.endsWith (String c s) suf = String.eqb (String c s) suf || Js.endsWith s suf.
Proof. reflexivity. Qed.

Lemma endsWith_spec (s suf : string) :
  Js.endsWith s suf = true <-> exists p, s = p ++ suf.
Proof.
  induction s as [|c s IH].
  - rewrite endsWith_nil, String.eqb_eq. split.
    + intros <-. by exists "".
    + intros [p Hp]. destruct p; simpl in Hp; [done | discriminate].
  - rewrite endsWith_cons, orb_true_iff, String.eqb_eq, IH. split.
    + intros [<- | [p ->]]; [by exists "" | by exists (String c p)].
    + intros [p Hp]. destruct p as [|c' p]; simpl in Hp.
      * by left.
      * right. exists p. by injection Hp.
Qed.

Lemma append_assoc_str (a b c : string) : (a ++ b) ++ c = a ++ (b ++ c).
Proof.
  induction a as [|x a IH]; [reflexivity|].
  change (String x ((a ++ b) ++ c) = String x (a ++ (b ++ c))). by rewrite IH.
Qed.

Lemma endsWith_trans (s mid suf : string) :
  Js.endsWith s mid = true -> Js.endsWith mid suf = true -> Js.endsWith s suf = true.
Proof.
  rewrite !endsWith_spec. intros [p ->] [q ->].
  exists (p ++ q). by rewrite append_assoc_str.
Qed.

(** C10. [isGreenhouse] is total on strings: it always completes normally
    with a boolean; a string that does not parse as a URL gives [false];
    and the result is [true] exactly when the string parses and the parsed
    hostname ends with "greenhouse.io". *)
Theorem isGreenhouse_total (url_hostname : string -> option string) (url : string) :
  (exists b, isGreenhouse url_hostname url = Normal b) /\
  (url_hostname url = None -> isGreenhouse url_hostname url = Normal false) /\
  (isGreenhouse url_hostname url = Normal true <->
     exists h, url_hostname url = Some h /\ Js.endsWith h "greenhouse.io" = true).
Proof.
  unfold isGreenhouse, new_URL_hostname.
  destruct (url_hostname url) as [h|] eqn:Hp; simpl.
  - split; [eauto|]. split; [done|]. split.
    + intros [= Hb]. exists h. split; [done|].
      apply orb_true_iff in Hb as [Hb|Hb]; [apply orb_true_iff in Hb as [Hb|Hb]|].
      * done.
      * by apply (endsWith_trans h "boards.greenhouse.io").
      * by apply (endsWith_trans h "job-boards.greenhouse.io").
    + intros (h' & [= <-] & Hh). by rewrite Hh.
  - split; [eauto|]. split; [done|]. split; [done|].
    intros (h' & ? & _). done.
Qed.

(** ** utils/detect.js: label resolution *)

Lemma label_text_of_nonempty (o : option (ref * Element)) (t : string) :
  label_text_of o = Some t -> t <> "".
Proof.
  destruct o as [[r e]|]; [|done]. unfold label_text_of.
  destruct (Js.truthy (innerText e)); [|done]. simpl.
  destruct (Js.truthy (Js.trim (innerText e))) eqn:Ht; [|done].
  intros [= <-] Hempty. unfold Js.truthy in Ht. by rewrite Hempty in Ht.
Qed.

Lemma strategy_label_for_nonempty (doc : Node) (e : Element) (t : string) :
  strategy_label_for doc e = Normal (Some t) -> t <> "".
Proof.
  unfold strategy_label_for. destruct (Js.truthy (el_id e)); [|done].
  destruct (querySelector_attr doc is_label "for" (el_id e)) as [lab|]; [|done].
  simpl. intros [= H]. by apply label_text_of_nonempty in H.
Qed.

Lemma strategy_labelledby_nonempty (doc : Node) (e : Element) (t : string) :
  strategy_labelledby doc e = Some t -> t <> "".
Proof.
  unfold strategy_labelledby. destruct (getAttribute e "aria-labelledby") as [a|]; [|done].
  destruct (Js.truthy a); [|done]. apply label_text_of_nonempty.
Qed.




(** C7. On a control preceded by a sibling whose rendered text is white
    space only, the resolver returns the empty string: the sibling's
    text is truthy, its trimmed length is below 80, and the trimmed text,
    which is empty, is returned; neither the placeholder nor the
    "(no-label)" marker is reached. *)
Theorem label_blank_sibling :
  elem_at doc_blank_sibling [1; 0; 0]%nat = Some (input_text [("placeholder", "City")]) /\
  (innerText <$> elem_at doc_blank_sibling [0; 0; 0]%nat) = Some " " /\
  strategy_siblings doc_blank_sibling (previousElementSibling [1; 0; 0]%nat) 4 = Some "" /\
  getLabelForElement doc_blank_sibling [1; 0; 0]%nat = Normal "".
Proof. vm_compute. done. Qed.

(** ** utils/detect.js: field extraction *)

Lemma dedupe_fold (fs : list Field.t) (seen : gset string) (out : list Field.t) :
  (fold_left dedupe_step fs (seen, out)).2 = (out ++ first_seen seen fs)%list.
Proof.
  revert seen out. induction fs as [|f fs IH]; intros seen out; simpl.
  - by rewrite app_nil_r.
  - unfold dedupe_step at 2. simpl. destruct (decide (field_key f ∈ seen)).
    + apply IH.
    + rewrite IH. by rewrite <- app_assoc.
Qed.

Lemma dedupe_first_seen (fs : list Field.t) : dedupe fs = first_seen ∅ fs.
Proof. unfold dedupe. by rewrite dedupe_fold. Qed.

Lemma first_seen_fresh (fs : list Field.t) (seen : gset string) (g : Field.t) :
  g ∈ first_seen seen fs -> field_key g ∉ seen.
Proof.
  revert seen. induction fs as [|f fs IH]; intros seen; simpl.
  - by intros ?%elem_of_nil.
  - destruct (decide (field_key f ∈ seen)); [by apply IH|].
    intros [->|Hg]%elem_of_cons; [done|].
    apply IH in Hg. set_solver.
Qed.

Lemma first_seen_NoDup (fs : list Field.t) (seen : gset string) :
  NoDup (field_key <$> first_seen seen fs).
Proof.
  revert seen. induction fs as [|f fs IH]; intros seen; simpl.
  - constructor.
  - destruct (decide (field_key f ∈ seen)); [by apply IH|].
    rewrite fmap_cons. constructor; [|by apply IH].
    intros (g & Hk & Hg)%list_elem_of_fmap.
    apply first_seen_fresh in Hg. set_solver.
Qed.

Lemma first_seen_sublist (fs : list Field.t) (seen : gset string) :
  sublist (first_seen seen fs) fs.
Proof.
  revert seen. induction fs as [|f fs IH]; intros seen; simpl; [done|].
  destruct (decide (field_key f ∈ seen)).
  - by apply sublist_cons.
  - by apply sublist_skip.
Qed.

(** Every descriptor is represented by the first descriptor that has its
    key, unless the key was seen before. *)
Lemma first_seen_first (fs : list Field.t) (seen : gset string) (f : Field.t) :
  f ∈ fs -> field_key f ∉ seen ->
  exists g l1 l2,
    g ∈ first_seen seen fs /\ field_key g = field_key f /\
    fs = (l1 ++ g :: l2)%list /\ field_key g ∉ field_key <$> l1.
Proof.
  revert seen. induction fs as [|f0 fs IH]; intros seen Hin Hf.
  - by apply elem_of_nil in Hin.
  - simpl. destruct (decide (field_key f0 = field_key f)) as [Heq|Hne].
    + destruct (decide (field_key f0 ∈ seen)) as [Hs|Hs]; [by rewrite Heq in Hs|].
      exists f0, [], fs. split; [by left|]. split; [done|]. split; [done|].
      simpl. by intros ?%elem_of_nil.
    + apply elem_of_cons in Hin as [->|Hin]; [done|].
      destruct (decide (field_key f0 ∈ seen)) as [Hs|Hs].
      * destruct (IH seen Hin Hf) as (g & l1 & l2 & Hg & Hk & Hfs & Hl1).
        subst fs. exists g, (f0 :: l1), l2. split; [done|]. split; [done|]. split; [done|].
        rewrite fmap_cons. intros [E|E]%elem_of_cons; [congruence|done].
      * destruct (IH ({[field_key f0]} ∪ seen) Hin) as (g & l1 & l2 & Hg & Hk & Hfs & Hl1).
        { apply not_elem_of_union. split; [|done].
          apply not_elem_of_singleton. congruence. }
        subst fs. exists g, (f0 :: l1), l2. split; [by right|]. split; [done|]. split; [done|].
        rewrite fmap_cons. intros [E|E]%elem_of_cons; [congruence|done].
Qed.

Lemma field_key_identity (f : Field.t) : field_key f = key_of (identity f).
Proof. reflexivity. Qed.

Lemma dedupe_identity_NoDup (fs : list Field.t) : NoDup (identity <$> dedupe fs).
Proof.
  apply (NoDup_fmap_1 key_of). rewrite <- list_fmap_compose.
  rewrite dedupe_first_seen.
  change (NoDup (field_key <$> first_seen ∅ fs)).
  apply first_seen_NoDup.
Qed.

(** C8 (amended). Extraction only reads the document, so two consecutive
    calls return the same list, descriptor by descriptor; the returned
    list is taken in order from the descriptors of the visible controls,
    no two of its descriptors share the tuple (id, name, label_text), and
    for every visible control's descriptor the list holds the first-seen
    descriptor with the same joined key [id::name::label_text]. *)
Theorem extractFields_stable (doc : Node) :
  (let '(doc1, r1) := call_extractFields doc in
   let '(doc2, r2) := call_extractFields doc1 in
   doc2 = doc /\ r2 = r1) /\
  (forall out, extractFields doc = Normal out ->
     NoDup (identity <$> out) /\
     exists fields,
       mapM (describe doc) (visible_controls doc) = Normal fields /\
       sublist out fields /\
       forall f, f ∈ fields ->
         exists g l1 l2,
           g ∈ out /\ field_key g = field_key f /\
           fields = (l1 ++ g :: l2)%list /\ field_key g ∉ field_key <$> l1).
Proof.
  split; [done|].
  intros out. unfold extractFields.
  destruct (mapM (describe doc) (visible_controls doc)) as [fields|err]; [|done].
  simpl. intros [= <-]. split; [apply dedupe_identity_NoDup|].
  exists fields. split; [done|]. rewrite dedupe_first_seen.
  split; [apply first_seen_sublist|].
  intros f Hf. apply first_seen_first; [done|set_solver].
Qed.

(** C8, as stated, fails: the second input has a tuple of its own, and
    no descriptor with that tuple is kept, because its joined key is the
    first input's. *)
Lemma extractFields_counterexample :
  let d1 := Field.mk "input" None (Some "a::b") None (Some "text") None "(no-label)" in
  let d2 := Field.mk "input" (Some "b::") (Some "a") None (Some "text") None "(no-label)" in
  mapM (describe doc_key_clash) (visible_controls doc_key_clash) = Normal [d1; d2] /\
  identity d1 <> identity d2 /\
  field_key d1 = field_key d2 /\
  extractFields doc_key_clash = Normal [d1] /\
  ~ (exists g, g ∈ [d1] /\ identity g = identity d2).
Proof.
  cbv zeta. split; [by vm_compute|]. split; [by vm_compute|].
  split; [by vm_compute|]. split; [by vm_compute|].
  intros (g & ->%list_elem_of_singleton & Hg). by vm_compute in Hg.
Qed.

(** ** utils/autofill.js: the fill count *)

(** [autofillFields] never throws to its caller: whatever is raised inside
    is caught and turned into [false]. *)
Lemma autofillFields_never_throws (doc : Node) (fields : list Field.t)
    (answersMap : option (gmap string string)) (parsed_resume : option ParsedResume)
    (resumeFile : option ResumeFile) (log : list Effect) :
  exists b log', autofillFields doc fields answersMap parsed_resume resumeFile log
                 = (Normal b, log').
Proof.
  unfold autofillFields, try_catch_M.
  match goal with |- context [match ?m log with _ => _ end] => destruct (m log) as [[b|e] l] end.
  - by exists b, l.
  - by exists false, l.
Qed.

(** C3. On a form whose only field is the "Phone type" select, with no
    answers and a resume text that holds a phone number, the main pass
    fills nothing, the fallback pass calls [setValue] on the select with
    the phone number, no option matches, nothing on the page is set, and
    the field is counted all the same, the test being on the promise and
    not on its value: [autofillFields] returns [true] with no field
    filled. *)
Theorem autofill_fallback_counts_failed_set :
  extractFields doc_phone_type = Normal [field_phone_type] /\
  for_of (fill_field doc_phone_type (Some ∅) None) [field_phone_type] 0%nat []
    = (Normal 0%nat, []) /\
  setValue (Some ([1; 0; 0]%nat, select_one [("id", "ptype")]
                                   [option_of "Mobile"; option_of "Home"]))
           "5551234567" None [] = (Normal false, []) /\
  autofillFields doc_phone_type [field_phone_type] (Some ∅) (Some resume_jane) None []
    = (Normal true, []) /\
  (let '(result, log) :=
     autofillFields doc_phone_type [field_phone_type] (Some ∅) (Some resume_jane) None [] in
   result = Normal true /\ fills log = 0%nat).
Proof.
  split; [by vm_compute|]. split; [by vm_compute|]. split; [by vm_compute|].
  split; [by vm_compute|]. vm_compute. split; reflexivity.
Qed.

(** ** utils/autofill.js: the value setter on selects *)

(** The value of an option matters to the first strategy only when it
    is the answer itself. *)
Lemma select_exact_value (valLower t v : string) :
  valLower_of v <> valLower ->
  select_exact valLower {| text := t; value := v |}
  = String.eqb (Js.trim (Js.toLowerCase (Js.or_else t ""))) valLower
    || Js.includes (Js.trim (Js.toLowerCase (Js.or_else t ""))) valLower
    || Js.includes valLower (Js.trim (Js.toLowerCase (Js.or_else t ""))).
Proof.
  intros Hv. unfold select_exact. cbn [text value].
  fold (valLower_of v). rewrite (proj2 (String.eqb_neq _ _) Hv).
  by rewrite orb_false_r.
Qed.

Lemma select_exact_text (valLower t v : string) :
  Js.includes (Js.trim (Js.toLowerCase (Js.or_else t ""))) valLower = true ->
  select_exact valLower {| text := t; value := v |} = true.
Proof.
  intros Hi. unfold select_exact. cbn [text value].
  rewrite Hi, orb_true_r. reflexivity.
Qed.

(** C5. With the options "0-2 years", "3-5 years", "5-7 years" and
    "7+ years" the answer "7" selects "5-7 years": the value setter sets
    the select to that option and reports success, whatever the options'
    values are, as long as the value of neither of the first two is "7"
    itself.  In general the option selected is the candidate of the
    first strategy that has one, in the order exact or substring,
    numeric range, word overlap, last resort substring. *)
Theorem select_strategy_order :
  select_option years_options "7" = Some (option_of "5-7 years") /\
  (forall v0 v1 v2 v3 : string,
     valLower_of v0 <> "7" -> valLower_of v1 <> "7" ->
     select_option [ {| text := "0-2 years"; value := v0 |};
                     {| text := "3-5 years"; value := v1 |};
                     {| text := "5-7 years"; value := v2 |};
                     {| text := "7+ years"; value := v3 |} ] "7"
     = Some {| text := "5-7 years"; value := v2 |}) /\
  (forall (r : ref) (attributes : list (string * string)) (log : list Effect),
     setValue (Some (r, select_one attributes years_options)) "7" None log
     = (Normal true, (log ++ [SetValue r "5-7 years"; Dispatch r "change"])%list)) /\
  (forall (options : list SelectOption) (val : string),
     select_option options val
     = first_candidate [candidate_exact options val; candidate_range options val;
                        candidate_words options val; candidate_partial options val]).
Proof.
  split; [by vm_compute|]. split; [|split].
  - intros v0 v1 v2 v3 H0 H1. unfold select_option.
    change (Js.trim (Js.toLowerCase (Js.or_else "7" ""))) with "7".
    assert (Hfind : find (select_exact "7")
                      [ {| text := "0-2 years"; value := v0 |};
                        {| text := "3-5 years"; value := v1 |};
                        {| text := "5-7 years"; value := v2 |};
                        {| text := "7+ years"; value := v3 |} ]
                    = Some {| text := "5-7 years"; value := v2 |}).
    { cbn [find].
      rewrite (select_exact_value "7" "0-2 years" v0 H0).
      rewrite (select_exact_value "7" "3-5 years" v1 H1).
      rewrite (select_exact_text "7" "5-7 years" v2 eq_refl).
      reflexivity. }
    rewrite Hfind. reflexivity.
  - intros r attributes log. unfold setValue, try_catch_M.
    change (is_file_input (select_one attributes years_options)) with false.
    cbn [tagName select_one el_options].
    change (String.eqb (Js.toLowerCase "SELECT") "select") with true.
    change (select_option years_options "7") with (Some (option_of "5-7 years")).
    cbv [mbind M_bind bind emit ret mret M_ret option_of value].
    by rewrite <- app_assoc.
  - intros options val.
    unfold select_option, candidate_exact, candidate_range, candidate_words,
      candidate_partial, valLower_of.
    set (valLower := Js.trim (Js.toLowerCase (Js.or_else val ""))).
    set (valNum := JsNum.parseFloat valLower).
    destruct (find (select_exact valLower) options) as [o1|],
      (JsNum.isNaN valNum), (JsNum.ltb (JsNum.of_Z 0) valNum),
      (find (select_range valNum) options) as [o2|],
      (1 <? length (Regex.split_ws valLower))%nat,
      (find (select_words _) options) as [o3|],
      (find (select_partial valLower) options) as [o4|];
      reflexivity.
Qed.

(** ** utils/autofill.js: the value setter on file controls *)





(** ** background.js and popup.js: the request life cycle *)


Ltac map_cases rid r :=
  destruct (decide (r = rid)) as [->|?];
  rewrite ?lookup_insert_eq, ?lookup_delete_eq, ?lookup_insert_ne, ?lookup_delete_ne in * by done.














(** A call whose request was cancelled still ends by writing its record:
    after the cancel, the arrival of the response body stores a
    [Complete] record, which the next status check returns. *)
Lemma cancel_does_not_stop_call (s : State) (rid : string) (t status : Z)
    (data : JsValue) (now now' : Z) :
  inflight s !! rid = Some (AwaitBody t true status) ->
  let s1 := (step s (CANCEL_REQUEST rid)).1 in
  let s2 := (step s1 (BodyRead rid data now)).1 in
  (step s1 (CHECK_REQUEST_STATUS rid now)).2 = [StatusNotFound] /\
  (step s2 (CHECK_REQUEST_STATUS rid now')).2
    = [StatusComplete data (round_seconds (now - t))].
Proof.
  intros Hfl s1 s2. subst s2 s1. simpl. rewrite !lookup_delete_eq. split; [done|].
  rewrite Hfl. simpl. by rewrite lookup_insert_eq.
Qed.

(** C1. A request is started and cancelled; a status check then answers
    not_found.  The response arrives afterwards and its body is read:
    the suspended call writes a [Complete] record for the cancelled id,
    and the next status check returns it. *)
Theorem cancel_then_completion_is_readable :
  let started := [BG_RESUME_SCORE "score_1" "https://boards.greenhouse.io/acme/jobs/1" 1000;
                  CANCEL_REQUEST "score_1"] in
  let settled := [FetchResolved "score_1" true 200 31000;
                  BodyRead "score_1" (VObject "{score: 82}") 31200] in
  storage (exec init started) !! "score_1" = None /\
  pendingRequests (exec init started) !! "score_1" = None /\
  (step (exec init started) (CHECK_REQUEST_STATUS "score_1" 3000)).2 = [StatusNotFound] /\
  storage (exec init (started ++ settled)) !! "score_1"
    = Some (Complete (VObject "{score: 82}") 31200 30) /\
  (step (exec init (started ++ settled)) (CHECK_REQUEST_STATUS "score_1" 33000)).2
    = [StatusComplete (VObject "{score: 82}") 30].
Proof. repeat split; by vm_compute. Qed.



(** * Part VII: further properties of the code *)

(** ** utils/autofill.js: what the value setter reports *)

Lemma fills_app (l1 l2 : list Effect) : fills (l1 ++ l2) = (fills l1 + fills l2)%nat.
Proof. unfold fills. by rewrite filter_app, length_app. Qed.

Lemma setValue_outcome (el : option (ref * Element)) (val : string)
    (resumeFile : option ResumeFile) (log : list Effect) :
  exists (b : bool) (added : list Effect),
    setValue el val resumeFile log = (Normal b, (log ++ added)%list) /\
    fills added = (if b then 1 else 0)%nat.
Proof.
  unfold setValue, try_catch_M. destruct el as [[r e]|].
  - destruct (is_file_input e).
    + destruct resumeFile as [rf|].
      * destruct (Js.truthy (rf_data rf)).
        -- cbv [mbind M_bind bind lift emit ret].
           destruct (Base64.atob (rf_data rf)) as [bytes|err].
           ++ exists true, [SetFiles r (file_of rf bytes); Dispatch r "change";
                            Dispatch r "input"].
              split; [by rewrite <- !app_assoc|done].
           ++ by exists false, [Click r].
        -- by exists false, [Click r].
      * by exists false, [Click r].
    + destruct (String.eqb (Js.toLowerCase (tagName e)) "select").
      * destruct (select_option (el_options e) val) as [opt|].
        -- exists true, [SetValue r (value opt); Dispatch r "change"].
           cbv [mbind M_bind bind emit ret]. split; [by rewrite <- !app_assoc|done].
        -- exists false, []. by rewrite app_nil_r.
      * exists true, [Focus r; SetValue r val; Dispatch r "input"; Dispatch r "change"].
        cbv [mbind M_bind bind emit ret]. split; [by rewrite <- !app_assoc|done].
  - exists false, []. by rewrite app_nil_r.
Qed.

(** X1. The value setter never throws, only adds to the log, and its
    result tells whether it has set something: it returns [true]
    exactly when it has attached a file or set a value, which it does
    at most once. *)
Theorem setValue_reports_fill (el : option (ref * Element)) (val : string)
    (resumeFile : option ResumeFile) (log : list Effect) :
  exists (b : bool) (added : list Effect),
    setValue el val resumeFile log = (Normal b, (log ++ added)%list) /\
    fills added = (if b then 1 else 0)%nat.
Proof. apply setValue_outcome. Qed.

(** ** utils/autofill.js: the option a select is set to *)

Lemma find_member {A} (p : A -> bool) (l : list A) (a : A) :
  find p l = Some a -> a ∈ l /\ p a = true.
Proof.
  intros H. apply find_some in H as [Hin Hp]. split; [|done].
  by apply list_elem_of_In.
Qed.

Lemma select_option_found (options : list SelectOption) (val : string) (o : SelectOption) :
  select_option options val = Some o -> o ∈ options.
Proof.
  unfold select_option.
  set (valLower := Js.trim (Js.toLowerCase (Js.or_else val ""))).
  set (valNum := JsNum.parseFloat valLower).
  destruct (find (select_exact valLower) options) as [o1|] eqn:E1,
    (JsNum.isNaN valNum), (JsNum.ltb (JsNum.of_Z 0) valNum),
    (find (select_range valNum) options) as [o2|] eqn:E2,
    (1 <? length (Regex.split_ws valLower))%nat,
    (find (select_words _) options) as [o3|] eqn:E3,
    (find (select_partial valLower) options) as [o4|] eqn:E4;
    cbn [is_none andb negb]; intros [= <-];
    first [ by apply find_member in E1 as [? _]
          | by apply find_member in E2 as [? _]
          | by apply find_member in E3 as [? _]
          | by apply find_member in E4 as [? _] ].
Qed.

(** X2. On a select the value setter writes only a value of one of the
    select's own options: when it succeeds, the value set is that of an
    option of the control, followed by one change event; when no option
    matches it reports failure and leaves the page as it was. *)
Theorem setValue_select_own_option (r : ref) (e : Element) (val : string)
    (resumeFile : option ResumeFile) (log : list Effect) :
  is_file_input e = false ->
  Js.toLowerCase (tagName e) = "select" ->
  (exists o, o ∈ el_options e /\
     setValue (Some (r, e)) val resumeFile log
     = (Normal true, (log ++ [SetValue r (value o); Dispatch r "change"])%list)) \/
  (select_option (el_options e) val = None /\
   setValue (Some (r, e)) val resumeFile log = (Normal false, log)).
Proof.
  intros Hf Ht. unfold setValue, try_catch_M. rewrite Hf, Ht.
  change (String.eqb "select" "select") with true. cbv iota.
  destruct (select_option (el_options e) val) as [o|] eqn:Hsel.
  - left. exists o. split; [by eapply select_option_found|].
    cbv [mbind M_bind bind emit ret]. by rewrite <- !app_assoc.
  - by right.
Qed.

Lemma setValue_select_own_option_witness :
  exists o, o ∈ years_options /\
    setValue (Some ([1; 0; 0]%nat, select_one [("id", "yoe")] years_options)) "4" None []
    = (Normal true, [SetValue [1; 0; 0]%nat (value o); Dispatch [1; 0; 0]%nat "change"]).
Proof.
  destruct (setValue_select_own_option [1; 0; 0]%nat (select_one [("id", "yoe")] years_options)
              "4" None [] eq_refl eq_refl) as [H|[H _]].
  - exact H.
  - by vm_compute in H.
Defined.

Lemma includes_empty (s : string) : Js.includes s "" = true.
Proof. by destruct s. Qed.

(** X3. An option whose text is blank takes every answer: when the
    first option of a select has an empty or white-space text (a
    placeholder entry), any answer at all selects that option, because
    every answer contains the empty string. *)
Theorem select_blank_option_wins (o : SelectOption) (rest : list SelectOption)
    (val : string) :
  Js.trim (Js.toLowerCase (text o)) = "" ->
  select_option (o :: rest) val = Some o.
Proof.
  intros Hblank. unfold select_option.
  set (valLower := Js.trim (Js.toLowerCase (Js.or_else val ""))).
  assert (Hex : select_exact valLower o = true).
  { unfold select_exact.
    assert (Js.or_else (text o) "" = text o) as ->.
    { unfold Js.or_else. by destruct (text o). }
    rewrite Hblank, includes_empty. by rewrite orb_true_r. }
  cbn [find]. rewrite Hex. reflexivity.
Qed.

Lemma select_blank_option_wins_witness :
  select_option [ {| text := ""; value := "" |}; option_of "Canada"; option_of "USA" ] "USA"
  = Some {| text := ""; value := "" |}.
Proof.
  exact (select_blank_option_wins {| text := ""; value := "" |}
           [option_of "Canada"; option_of "USA"] "USA" eq_refl).
Defined.

(** ** utils/autofill.js: the main pass *)

Lemma fill_field_label (doc : Node) (answersMap : option (gmap string string))
    (resumeFile : option ResumeFile) (filledCount : nat) (f : Field.t) (log : list Effect)
    (a : string) (answers : gmap string string) :
  answersMap = Some answers ->
  answers !! field_label f = Some a ->
  fill_field doc answersMap resumeFile filledCount f log
  = (el ← lift (findElementForField doc f);
     match el with
     | None => ret filledCount
     | Some (r, e) =>
         if is_file_input e then
           p ← async_call (setValue (Some (r, e)) "" resumeFile);
           ok ← await p;
           ret (if ok : bool then S filledCount else filledCount)
         else if negb (Js.truthy a) then ret filledCount
         else
           let val := Js.trim (Js.or_else a "") in
           if negb (Js.truthy val) then ret filledCount
           else
             p ← async_call (setValue (Some (r, e)) val resumeFile);
             ok ← await p;
             ret (if ok : bool then S filledCount else filledCount)
     end) log.
Proof.
  intros -> Ha. unfold fill_field. fold (field_label f).
  cbv [mbind M_bind bind lift answer_at ret]. by rewrite Ha.
Qed.

(** X4. An answer filed under the label of a field is what is written
    into it: when the answers hold a non-blank text under the field's
    label and the field resolves to a control that is neither a file
    input nor a select, the main pass focuses the control, sets its
    value to the trimmed answer, dispatches input and then change, and
    counts the field. *)
Theorem fill_field_writes_answer (doc : Node) (answers : gmap string string)
    (resumeFile : option ResumeFile) (filledCount : nat) (f : Field.t)
    (r : ref) (e : Element) (a : string) (log : list Effect) :
  answers !! field_label f = Some a ->
  Js.trim a <> "" ->
  findElementForField doc f = Normal (Some (r, e)) ->
  is_file_input e = false ->
  Js.toLowerCase (tagName e) <> "select" ->
  fill_field doc (Some answers) resumeFile filledCount f log
  = (Normal (S filledCount),
     (log ++ [Focus r; SetValue r (Js.trim a); Dispatch r "input"; Dispatch r "change"])%list).
Proof.
  intros Ha Hne Hel Hfile Hsel.
  rewrite (fill_field_label _ _ _ _ _ _ a answers eq_refl Ha).
  assert (Hta : Js.truthy a = true).
  { unfold Js.truthy. destruct a; [by elim Hne|done]. }
  assert (Hor : Js.or_else a "" = a) by (unfold Js.or_else; by rewrite Hta).
  assert (Htv : Js.truthy (Js.trim a) = true).
  { unfold Js.truthy. apply negb_true_iff, String.eqb_neq. done. }
  cbv [mbind M_bind bind lift ret]. rewrite Hel, Hfile, Hta. cbn [negb].
  rewrite Hor, Htv. cbn [negb].
  unfold async_call, setValue, try_catch_M. rewrite Hfile.
  apply String.eqb_neq in Hsel. rewrite Hsel.
  cbv [mbind M_bind bind emit ret await]. by rewrite <- !app_assoc.
Qed.

Lemma fill_field_writes_answer_witness :
  fill_field doc_contact (Some {["Email" := " jane@doe.org "]}) None 0%nat field_email []
  = (Normal 1%nat,
     [Focus [1; 0; 0]%nat; SetValue [1; 0; 0]%nat "jane@doe.org";
      Dispatch [1; 0; 0]%nat "input"; Dispatch [1; 0; 0]%nat "change"]).
Proof.
  exact (fill_field_writes_answer doc_contact {["Email" := " jane@doe.org "]} None 0%nat
           field_email [1; 0; 0]%nat (input_text [("id", "email")]) " jane@doe.org " []
           eq_refl ltac:(by vm_compute) eq_refl eq_refl ltac:(by vm_compute)).
Defined.

Lemma counted_unchanged (c : nat) (log : list Effect) : counted c log (Normal c, log).
Proof. exists []. simpl. rewrite app_nil_r. split; [done|]. unfold fills. simpl. lia. Qed.

Lemma counted_throw (c : nat) (log : list Effect) (e : JsError) :
  counted c log (Throw e, log).
Proof. exists []. simpl. by rewrite app_nil_r. Qed.

Lemma counted_setValue (c : nat) (log : list Effect) (el : option (ref * Element))
    (val : string) (resumeFile : option ResumeFile) :
  counted c log
    ((p ← async_call (setValue el val resumeFile);
      ok ← await p;
      ret (if ok : bool then S c else c)) log).
Proof.
  destruct (setValue_outcome el val resumeFile log) as (b & added & Hset & Hfill).
  cbv [mbind M_bind bind async_call]. rewrite Hset. cbv [await ret].
  exists added. simpl. split; [done|]. rewrite Hfill. destruct b; lia.
Qed.

Lemma fill_field_counted (doc : Node) (answersMap : option (gmap string string))
    (resumeFile : option ResumeFile) (c : nat) (f : Field.t) (log : list Effect) :
  counted c log (fill_field doc answersMap resumeFile c f log).
Proof.
  unfold fill_field. fold (field_label f).
  destruct answersMap as [answers|]; [|apply counted_throw].
  cbv [mbind M_bind bind lift answer_at].
  assert (Hrest : forall candidateAnswer,
    counted c log
      (match findElementForField doc f with
       | Normal a =>
           match a with
           | Some (r, e) =>
               if is_file_input e
               then p ← async_call (setValue (Some (r, e)) "" resumeFile);
                    ok ← await p;
                    ret (if ok : bool then S c else c)
               else if negb (Js.truthy candidateAnswer) then ret c
               else
                 if negb (Js.truthy (Js.trim (Js.or_else candidateAnswer "")))
                 then ret c
                 else p ← async_call (setValue (Some (r, e))
                                        (Js.trim (Js.or_else candidateAnswer "")) resumeFile);
                      ok ← await p;
                      ret (if ok : bool then S c else c)
           | None => ret c
           end log
       | Throw e => (Throw e, log)
       end)).
  { intros a. destruct (findElementForField doc f) as [[[r e]|]|err];
      [|apply counted_unchanged|apply counted_throw].
    destruct (is_file_input e); [apply counted_setValue|].
    destruct (negb (Js.truthy a)); [apply counted_unchanged|].
    destruct (negb (Js.truthy _)); [apply counted_unchanged|apply counted_setValue]. }
  destruct (answers !! field_label f) as [a|]; cbv [ret]; apply Hrest.
Qed.

Lemma for_of_counted (doc : Node) (answersMap : option (gmap string string))
    (resumeFile : option ResumeFile) (fields : list Field.t) (c : nat) (log : list Effect) :
  counted c log (for_of (fill_field doc answersMap resumeFile) fields c log).
Proof.
  revert c log. induction fields as [|f fields IH]; intros c log; [apply counted_unchanged|].
  cbn [for_of]. cbv [mbind M_bind bind].
  destruct (fill_field_counted doc answersMap resumeFile c f log) as (a1 & Hlog & Hc).
  destruct (fill_field doc answersMap resumeFile c f log) as [[c1|err] log1] eqn:E;
    simpl in Hlog, Hc; subst log1.
  - destruct (IH c1 (log ++ a1)%list) as (a2 & Hlog2 & Hc2).
    exists (a1 ++ a2)%list. rewrite Hlog2, app_assoc. split; [done|].
    destruct ((for_of _ fields c1 (log ++ a1)%list).1); [|done].
    rewrite fills_app. lia.
  - by exists a1.
Qed.

(** X5. In a run without a parsed resume the result of [autofillFields]
    is exact: it never throws, the log only grows, a [true] result
    means that at least one file was attached or value set, and when
    the main pass completes the result is [true] exactly when it has
    filled a field. *)
Theorem autofill_without_resume_exact (doc : Node) (fields : list Field.t)
    (answersMap : option (gmap string string)) (resumeFile : option ResumeFile)
    (log : list Effect) :
  exists (b : bool) (added : list Effect),
    autofillFields doc fields answersMap None resumeFile log = (Normal b, (log ++ added)%list) /\
    (b = true -> (0 < fills added)%nat) /\
    (forall c l, for_of (fill_field doc answersMap resumeFile) fields 0%nat log = (Normal c, l) ->
                 c = fills added /\ b = (0 <? fills added)%nat).
Proof.
  unfold autofillFields, try_catch_M. cbv [mbind M_bind bind].
  destruct (for_of_counted doc answersMap resumeFile fields 0%nat log) as (added & Hlog & Hc).
  destruct (for_of (fill_field doc answersMap resumeFile) fields 0%nat log) as [[c|err] l] eqn:E;
    simpl in Hlog, Hc; subst l.
  - cbv [ret]. exists (0 <? c)%nat, added. split; [done|]. subst c. simpl. split.
    + intros H. by apply Nat.ltb_lt in H.
    + intros c' l' [= <- _]. done.
  - cbv [ret]. exists false, added. split; [done|]. split; [done|]. intros c l [=].
Qed.

(** X6. Without an answers map nothing is filled: when [answersMap] is
    missing, [autofillFields] returns [false] and leaves the page
    untouched, whatever the fields, the resume and the resume file
    are. *)
Theorem autofill_without_answers (doc : Node) (fields : list Field.t)
    (parsed_resume : option ParsedResume) (resumeFile : option ResumeFile)
    (log : list Effect) :
  autofillFields doc fields None parsed_resume resumeFile log = (Normal false, log).
Proof.
  unfold autofillFields, try_catch_M. cbv [mbind M_bind bind].
  destruct fields as [|f fields].
  - cbn [for_of]. cbv [ret]. destruct parsed_resume as [pr|]; [|done].
    change (0 =? 0)%nat with true. cbv iota. cbn [for_of]. by cbv [ret].
  - cbn [for_of]. unfold fill_field at 1. by cbv [mbind M_bind bind lift answer_at].
Qed.

(** ** utils/detect.js: what is extracted *)

Lemma mapM_members {A B} (f : A -> completion B) (l : list A) (bs : list B) :
  mapM f l = Normal bs ->
  length bs = length l /\ forall b, b ∈ bs -> exists a, a ∈ l /\ f a = Normal b.
Proof.
  revert bs. induction l as [|a l IH]; intros bs; simpl.
  - intros [= <-]. split; [done|]. by intros b ?%elem_of_nil.
  - destruct (f a) as [b0|] eqn:Ea; simpl; [|done].
    destruct (mapM f l) as [bs0|]; simpl; [|done].
    intros [= <-]. destruct (IH bs0 eq_refl) as [Hlen Hmem]. split; [simpl; lia|].
    intros b [->|Hb]%elem_of_cons.
    + exists a. split; [by left|done].
    + destruct (Hmem b Hb) as (a' & Ha' & Hf). exists a'. split; [by right|done].
Qed.

Lemma or_null_not_empty (o : option string) : Js.or_null o <> Some "".
Proof.
  destruct o as [s|]; simpl; [|done].
  destruct (Js.truthy s) eqn:E; [|done]. intros [= ->]. done.
Qed.

(** X7. Only visible controls are extracted: every descriptor returned
    by [extractFields] describes an input, textarea or select of the
    document that is displayed, not hidden and laid out; its tag is one
    of these three names, and its id, name and placeholder are [null]
    rather than empty. *)
Theorem extractFields_only_visible (doc : Node) (out : list Field.t) (f : Field.t) :
  extractFields doc = Normal out ->
  f ∈ out ->
  exists r e,
    (r, e) ∈ all_elements doc /\
    is_control e = true /\
    display e <> "none" /\ visibility e <> "hidden" /\ offsetParent_null e = false /\
    describe doc (r, e) = Normal f /\
    Field.tag f ∈ ["input"; "textarea"; "select"] /\
    Field.id f <> Some "" /\ Field.name f <> Some "" /\ Field.placeholder f <> Some "".
Proof.
  unfold extractFields.
  destruct (mapM (describe doc) (visible_controls doc)) as [fields|] eqn:Hmap; [|done].
  simpl. intros [= <-] Hf.
  rewrite dedupe_first_seen in Hf.
  pose proof (elem_of_sublist _ _ _ Hf (first_seen_sublist fields ∅)) as Hin.
  destruct (mapM_members _ _ _ Hmap) as [_ Hmem].
  destruct (Hmem f Hin) as ([r e] & Hre & Hdesc).
  unfold visible_controls in Hre.
  apply list_elem_of_filter in Hre as [Hvis Hre].
  apply list_elem_of_filter in Hre as [Hctl Hre]. simpl in Hvis, Hctl.
  exists r, e. split; [done|]. split; [done|].
  unfold is_visible in Hvis.
  apply andb_true_iff in Hvis as [Hvis Hoff]. apply andb_true_iff in Hvis as [Hd Hv].
  apply negb_true_iff in Hd, Hv, Hoff.
  apply String.eqb_neq in Hd, Hv.
  split; [done|]. split; [done|]. split; [done|]. split; [done|].
  unfold describe in Hdesc.
  destruct (getLabelForElement doc r) as [l|]; [|done]. simpl in Hdesc.
  injection Hdesc as <-. simpl.
  split; [|split; [|split]].
  - unfold is_control, tag_in, localName in Hctl.
    apply existsb_exists in Hctl as (n & Hn & Heq). apply String.eqb_eq in Heq.
    rewrite Heq. by apply list_elem_of_In.
  - apply (or_null_not_empty (Some (el_id e))).
  - apply (or_null_not_empty (Some (el_name e))).
  - apply or_null_not_empty.
Qed.

Lemma extractFields_only_visible_witness :
  exists r e,
    (r, e) ∈ all_elements doc_phone_type /\
    is_control e = true /\
    display e <> "none" /\ visibility e <> "hidden" /\ offsetParent_null e = false /\
    describe doc_phone_type (r, e) = Normal field_phone_type /\
    Field.tag field_phone_type ∈ ["input"; "textarea"; "select"] /\
    Field.id field_phone_type <> Some "" /\ Field.name field_phone_type <> Some "" /\
    Field.placeholder field_phone_type <> Some "".
Proof.
  apply (extractFields_only_visible doc_phone_type [field_phone_type] field_phone_type).
  - by vm_compute.
  - by left.
Defined.

Lemma first_seen_distinct (fs : list Field.t) (seen : gset string) :
  NoDup (field_key <$> fs) ->
  (forall f, f ∈ fs -> field_key f ∉ seen) ->
  first_seen seen fs = fs.
Proof.
  revert seen. induction fs as [|f fs IH]; intros seen Hnd Hseen; [done|].
  simpl. rewrite fmap_cons in Hnd. apply NoDup_cons in Hnd as [Hf Hnd].
  destruct (decide (field_key f ∈ seen)) as [Hin|_].
  - exfalso. apply (Hseen f); [by left|done].
  - f_equal. apply IH; [done|].
    intros g Hg. apply not_elem_of_union. split.
    + apply not_elem_of_singleton. intros Heq. apply Hf.
      rewrite <- Heq. by apply list_elem_of_fmap_2.
    + apply Hseen. by right.
Qed.

(** X8. The duplicate filter loses nothing it need not lose: when the
    visible controls have pairwise different keys [id::name::label_text],
    [extractFields] returns one descriptor per visible control, in
    document order; and in every case filtering the result again
    changes nothing. *)
Theorem extractFields_keeps_distinct (doc : Node) (fields : list Field.t) :
  mapM (describe doc) (visible_controls doc) = Normal fields ->
  NoDup (field_key <$> fields) ->
  extractFields doc = Normal fields /\
  length fields = length (visible_controls doc) /\
  (forall fs, dedupe (dedupe fs) = dedupe fs).
Proof.
  intros Hmap Hnd. unfold extractFields. rewrite Hmap. simpl. split; [|split].
  - f_equal. rewrite dedupe_first_seen. apply first_seen_distinct; [done|].
    intros f _. apply not_elem_of_empty.
  - by destruct (mapM_members _ _ _ Hmap).
  - intros fs. rewrite !dedupe_first_seen. apply first_seen_distinct.
    + apply first_seen_NoDup.
    + intros f _. apply not_elem_of_empty.
Qed.

Lemma extractFields_keeps_distinct_witness :
  extractFields doc_contact = Normal [field_email; field_cv] /\
  length [field_email; field_cv] = length (visible_controls doc_contact).
Proof.
  destruct (extractFields_keeps_distinct doc_contact [field_email; field_cv])
    as (H1 & H2 & _).
  - by vm_compute.
  - vm_compute. repeat constructor; set_solver.
  - split; [exact H1|exact H2].
Defined.

(** ** utils/autofill.js: element resolution *)

Lemma find_none_all {A} (p : A -> bool) (l : list A) (a : A) :
  find p l = None -> a ∈ l -> p a = false.
Proof.
  intros Hn Hin. apply list_elem_of_In in Hin. by apply (find_none p l Hn).
Qed.

(** X9. Every extracted field that has an id resolves by that id: for a
    descriptor returned by [extractFields] with a non-null id,
    [findElementForField] returns an element of the document whose id
    is the descriptor's, without consulting name, placeholder or
    labels; when the described control is the first element with that
    id, it is that control. *)
Theorem extracted_field_resolves_by_id (doc : Node) (out : list Field.t) (f : Field.t)
    (i : string) :
  extractFields doc = Normal out ->
  f ∈ out ->
  Field.id f = Some i ->
  (exists r e, findElementForField doc f = Normal (Some (r, e)) /\
               (r, e) ∈ all_elements doc /\ el_id e = i) /\
  (forall r e, describe doc (r, e) = Normal f ->
               getElementById doc i = Some (r, e) ->
               findElementForField doc f = Normal (Some (r, e))).
Proof.
  intros Hout Hf Hid.
  assert (Hfind : forall re, getElementById doc i = Some re ->
                             findElementForField doc f = Normal (Some re)).
  { intros re Hg. unfold findElementForField. rewrite Hid.
    assert (Js.truthy i = true) as ->.
    { unfold getElementById in Hg. by destruct (Js.truthy i). }
    by rewrite Hg. }
  split; [|intros r e _ Hg; by apply Hfind].
  unfold extractFields in Hout.
  destruct (mapM (describe doc) (visible_controls doc)) as [fields|] eqn:Hmap; [|done].
  simpl in Hout. injection Hout as <-.
  rewrite dedupe_first_seen in Hf.
  pose proof (elem_of_sublist _ _ _ Hf (first_seen_sublist fields ∅)) as Hin.
  destruct (mapM_members _ _ _ Hmap) as [_ Hmem].
  destruct (Hmem f Hin) as ([r0 e0] & Hre & Hdesc).
  apply list_elem_of_filter in Hre as [_ Hre].
  apply list_elem_of_filter in Hre as [_ Hre].
  unfold describe in Hdesc.
  destruct (getLabelForElement doc r0) as [l|]; [|done]. simpl in Hdesc.
  injection Hdesc as <-. simpl in Hid.
  destruct (Js.truthy (el_id e0)) eqn:Ht; [|done]. injection Hid as Hid.
  destruct (getElementById doc i) as [[r e]|] eqn:Hg.
  - exists r, e. split; [by apply Hfind|].
    unfold getElementById in Hg. rewrite <- Hid, Ht in Hg.
    apply find_member in Hg as [Hin' Hp]. simpl in Hp. apply String.eqb_eq in Hp.
    split; [done|]. by rewrite Hp.
  - exfalso. unfold getElementById in Hg. rewrite <- Hid, Ht in Hg.
    pose proof (find_none_all _ _ _ Hg Hre) as Hp. simpl in Hp.
    by rewrite String.eqb_refl in Hp.
Qed.

Lemma extracted_field_resolves_by_id_witness :
  findElementForField doc_contact field_email
  = Normal (Some ([1; 0; 0]%nat, input_text [("id", "email")])).
Proof.
  destruct (extracted_field_resolves_by_id doc_contact [field_email; field_cv] field_email
              "email") as [_ H].
  - by vm_compute.
  - by left.
  - reflexivity.
  - apply H; by vm_compute.
Defined.

(** What the ranking loop holds after the candidates [seen]: no
    candidate seen scores more than [bestScore]; [best] is the first
    candidate seen with that score, which is then positive. *)
Lemma rank_step_invariant (tokens : list string) (seen : list (ref * Element))
    (st : option (ref * Element) * nat) (i : ref * Element) :
  ranked tokens seen st -> ranked tokens (seen ++ [i]) (rank_step tokens st i).
Proof.
  destruct st as [best bestScore]. intros [Hmax Hbest]. unfold rank_step. simpl.
  destruct (bestScore <? token_score tokens i.2)%nat eqn:E.
  - apply Nat.ltb_lt in E. split; simpl.
    + intros x [Hx|Hx%list_elem_of_singleton]%elem_of_app; [|subst x; lia].
      specialize (Hmax x Hx). simpl in Hmax. lia.
    + split; [lia|]. exists seen, []. split; [done|]. split; [done|].
      intros x Hx. specialize (Hmax x Hx). simpl in Hmax. lia.
  - apply Nat.ltb_ge in E. split; simpl.
    + intros x [Hx|Hx%list_elem_of_singleton]%elem_of_app; [by apply Hmax|by subst x].
    + simpl in Hbest. destruct best as [b|]; [|done].
      destruct Hbest as (Hpos & l1 & l2 & -> & Hs & Hl1). split; [done|].
      exists l1, (l2 ++ [i])%list. split; [by rewrite <- app_assoc|done].
Qed.

Lemma rank_fold_invariant (tokens : list string) (inputs seen : list (ref * Element))
    (st : option (ref * Element) * nat) :
  ranked tokens seen st ->
  ranked tokens (seen ++ inputs) (fold_left (rank_step tokens) inputs st).
Proof.
  revert seen st. induction inputs as [|i inputs IH]; intros seen st Hst; simpl.
  - by rewrite app_nil_r.
  - replace (seen ++ i :: inputs)%list with ((seen ++ [i]) ++ inputs)%list
      by (by rewrite <- app_assoc).
    apply IH. by apply rank_step_invariant.
Qed.

(** X10. The token ranking picks the first best candidate: when a field
    has no id, name or placeholder and no label leads to an element,
    [findElementForField] returns, among the laid-out controls, the
    first one with the highest number of matching label tokens, and
    returns nothing when no control matches any token. *)
Theorem findElementForField_ranking (doc : Node) (f : Field.t) :
  Field.id f = None -> Field.name f = None -> Field.placeholder f = None ->
  find_by_label doc (Js.toLowerCase (Js.or_else (Field.label_text f) ""))
    (filter (fun re => is_label (snd re) = true) (all_elements doc)) = None ->
  let tokens := take 4 (Regex.split_ws (Js.toLowerCase (Js.or_else (Field.label_text f) ""))) in
  let allInputs := filter (fun re => offsetParent_null (snd re) = false) (controls doc) in
  (exists b l1 l2,
     findElementForField doc f = Normal (Some b) /\
     allInputs = (l1 ++ b :: l2)%list /\
     (0 < token_score tokens b.2)%nat /\
     (forall x, x ∈ l1 -> (token_score tokens x.2 < token_score tokens b.2)%nat) /\
     (forall x, x ∈ l2 -> (token_score tokens x.2 <= token_score tokens b.2)%nat)) \/
  (findElementForField doc f = Normal None /\
   forall x, x ∈ allInputs -> token_score tokens x.2 = 0%nat).
Proof.
  intros Hid Hname Hph Hlab tokens allInputs.
  assert (Hinv : ranked tokens allInputs (fold_left (rank_step tokens) allInputs (None, 0%nat))).
  { apply (rank_fold_invariant tokens allInputs []). split; [|done].
    by intros x ?%elem_of_nil. }
  assert (Hfind : findElementForField doc f
            = let '(best, bestScore) := fold_left (rank_step tokens) allInputs (None, 0%nat) in
              match best with
              | Some el => if (0 <? bestScore)%nat then Normal (Some el) else Normal None
              | None => Normal None
              end).
  { unfold findElementForField. rewrite Hid, Hname, Hph. cbn [cbind]. by rewrite Hlab. }
  rewrite Hfind.
  destruct (fold_left (rank_step tokens) allInputs (None, 0%nat)) as [best bestScore].
  destruct Hinv as [Hmax Hbest]. simpl in Hmax, Hbest.
  destruct best as [b|].
  - destruct Hbest as (Hpos & l1 & l2 & Hsplit & Hs & Hl1). left.
    exists b, l1, l2. apply Nat.ltb_lt in Hpos as Hpos'. rewrite Hpos'.
    split; [done|]. split; [done|]. rewrite Hs. split; [done|]. split; [done|].
    intros x Hx. apply Hmax. rewrite Hsplit. apply elem_of_app. right. by right.
  - right. split; [done|]. intros x Hx. specialize (Hmax x Hx). lia.
Qed.

Lemma findElementForField_ranking_witness :
  findElementForField doc_ranking field_city
  = Normal (Some ([1; 0; 0]%nat, input_text [("name", "home_city")])).
Proof.
  destruct (findElementForField_ranking doc_ranking field_city eq_refl eq_refl eq_refl)
    as [(b & l1 & l2 & H & Hsplit & _)|[H _]].
  - by vm_compute.
  - rewrite H. f_equal. f_equal.
    assert (Hb : Some b = Some ([1; 0; 0]%nat, input_text [("name", "home_city")])).
    { vm_compute in H. by injection H as <-. }
    by injection Hb.
  - by vm_compute in H.
Defined.

(** ** background.js: the records the worker writes *)

Lemma exec_preserves (P : State -> Prop) (evs : list Event) (s : State) :
  (forall s ev, P s -> P (step s ev).1) -> P s -> P (exec s evs).
Proof.
  intros Hstep. revert s. induction evs as [|ev evs IH]; intros s Hs; [done|].
  simpl. apply IH. by apply Hstep.
Qed.

Lemma value_or_truthy (a b : JsValue) : value_truthy b = true -> value_truthy (value_or a b) = true.
Proof. intros Hb. unfold value_or. by destruct (value_truthy a) eqn:E. Qed.

Lemma errors_truthy_delete (s : State) (r : string) (p : gmap string Z) (k : bool)
    (i : gmap string Call) :
  errors_truthy s ->
  errors_truthy {| storage := delete r (storage s); pendingRequests := p;
                   keepAlive := k; inflight := i |}.
Proof.
  intros H rid err c el. simpl. map_cases rid r; [done|]. apply H.
Qed.

Lemma errors_truthy_finish (s : State) (r : string) (t : Z) (res : FetchResult) (now : Z) :
  errors_truthy s -> errors_truthy (finish s r t res now).1.
Proof.
  intros H rid err c el. unfold finish. simpl. map_cases rid r; [|apply H].
  destruct (negb (ok res)); [|done]. intros [= <- _ _].
  apply value_or_truthy, value_or_truthy. done.
Qed.

Lemma errors_truthy_step (s : State) (ev : Event) :
  errors_truthy s -> errors_truthy (step s ev).1.
Proof.
  intros H.
  destruct ev as [r url now|r now|r|r ok st now|r data now|r name msg now|r now|r| |]; simpl.
  - intros rid err c el. simpl. map_cases rid r; [done|]. apply H.
  - destruct (storage s !! r) as [[| |]|]; simpl;
      try (destruct (pendingRequests s !! r)); simpl; try done;
      by apply errors_truthy_delete.
  - by apply errors_truthy_delete.
  - destruct (inflight s !! r) as [[|]|]; simpl; try done.
  - destruct (inflight s !! r) as [[|]|]; first [by apply errors_truthy_finish|done].
  - destruct (inflight s !! r) as [c|]; first [by apply errors_truthy_finish|done].
  - destruct (inflight s !! r) as [[|]|]; first [by apply errors_truthy_finish|done].
  - by apply errors_truthy_delete.
  - intros rid err c el. simpl. apply H.
  - intros rid err c el. simpl. by rewrite lookup_empty.
Qed.

(** X11. An error record always says something: after any sequence of
    events from a cold start, the [error] of every stored [Error] record
    is truthy (the response body, the failure message, or "Unknown
    error"), so a status check for it answers with that error and the
    popup shows it as it is, never its own "Unknown error". *)
Theorem stored_errors_are_truthy (evs : list Event) (rid : string) (err : JsValue)
    (completedTime elapsed now : Z) (p : Popup.State) (e : Z) :
  storage (exec init evs) !! rid = Some (Error err completedTime elapsed) ->
  value_truthy err = true /\
  (step (exec init evs) (CHECK_REQUEST_STATUS rid now)).2 = [StatusError err elapsed] /\
  Popup.on_response p e (StatusError err elapsed)
  = Popup.show (Popup.stopPolling p) (Popup.Failed err).
Proof.
  intros Hst.
  assert (Ht : value_truthy err = true).
  { refine (exec_preserves errors_truthy evs init errors_truthy_step _ _ _ _ _ Hst).
    intros r x c el. simpl. by rewrite lookup_empty. }
  split; [done|]. split.
  - simpl. by rewrite Hst.
  - unfold Popup.on_response, value_or. by rewrite Ht.
Qed.

Lemma stored_errors_are_truthy_witness :
  value_truthy (VString "Unknown error") = true /\
  (step (exec init [BG_RESUME_SCORE "score_1" "https://example.org/job" 1000;
                    FetchResolved "score_1" false 500 2000;
                    BodyRead "score_1" (VString "") 2100])
        (CHECK_REQUEST_STATUS "score_1" 3000)).2 = [StatusError (VString "Unknown error") 1].
Proof.
  destruct (stored_errors_are_truthy
              [BG_RESUME_SCORE "score_1" "https://example.org/job" 1000;
               FetchResolved "score_1" false 500 2000;
               BodyRead "score_1" (VString "") 2100]
              "score_1" (VString "Unknown error") 2100 1 3000
              (Popup.startPolling
                 {| Popup.currentRequestId := None; Popup.pollingInterval := false;
                    Popup.pollingStartTime := None; Popup.view := Popup.Blank;
                    Popup.last_score_result := None |} "score_1" 1000) 2000)
    as (H1 & H2 & _).
  - by vm_compute.
  - split; [exact H1|exact H2].
Defined.

(** ** background.js: the keep-alive *)

(** X12. The keep-alive is shared and not counted: when one request
    ends (its record is written and the popup notified) or any cancel
    message is handled, the keep-alive is stopped although another
    request is still in flight, and that request and its record are
    left as they were. *)
Theorem keep_alive_stops_for_all (s : State) (ev : Event) (other : string) (c : Call) :
  inflight s !! other = Some c ->
  about ev <> Some other ->
  ((step s ev).2 = [Cancelled] \/ exists r ok, (step s ev).2 = [SCORE_RESULT r ok]) ->
  keepAlive (step s ev).1 = false /\
  inflight (step s ev).1 !! other = Some c /\
  storage (step s ev).1 !! other = storage s !! other.
Proof.
  intros Hfl Hab Hout.
  assert (Hfin : forall r t res now, Some r <> Some other ->
            keepAlive (finish s r t res now).1 = false /\
            inflight (finish s r t res now).1 !! other = Some c /\
            storage (finish s r t res now).1 !! other = storage s !! other).
  { intros r t res now Hne. unfold finish. simpl.
    rewrite lookup_delete_ne, lookup_insert_ne by congruence. done. }
  destruct ev as [r url now|r now|r|r ok st now|r data now|r name msg now|r now|r| |];
    cbn [step about] in *.
  - destruct Hout as [[=]|(? & ? & [=])].
  - destruct (storage s !! r) as [[| |]|]; simpl in *;
      try (destruct (pendingRequests s !! r)); simpl in *;
      destruct Hout as [[=]|(? & ? & [=])].
  - simpl. rewrite lookup_delete_ne by congruence. done.
  - destruct (inflight s !! r) as [[|]|]; simpl in *;
      destruct Hout as [[=]|(? & ? & [=])].
  - destruct (inflight s !! r) as [[|]|]; try (by apply Hfin);
      simpl in Hout; destruct Hout as [[=]|(? & ? & [=])].
  - destruct (inflight s !! r) as [c0|]; try (by apply Hfin);
      simpl in Hout; destruct Hout as [[=]|(? & ? & [=])].
  - destruct (inflight s !! r) as [[|]|]; try (by apply Hfin);
      simpl in Hout; destruct Hout as [[=]|(? & ? & [=])].
  - simpl in Hout. destruct Hout as [[=]|(? & ? & [=])].
  - simpl in Hout. destruct Hout as [[=]|(? & ? & [=])].
  - simpl in Hout. destruct Hout as [[=]|(? & ? & [=])].
Qed.

Lemma keep_alive_stops_for_all_witness :
  let s := exec init [BG_RESUME_SCORE "score_1" "https://example.org/a" 1000;
                      BG_RESUME_SCORE "score_2" "https://example.org/b" 2000;
                      FetchResolved "score_1" true 200 5000] in
  keepAlive s = true /\
  keepAlive (step s (BodyRead "score_1" (VObject "{score: 70}") 5100)).1 = false /\
  inflight (step s (BodyRead "score_1" (VObject "{score: 70}") 5100)).1 !! "score_2"
    = Some (AwaitFetch 2000).
Proof.
  intros s.
  destruct (keep_alive_stops_for_all s (BodyRead "score_1" (VObject "{score: 70}") 5100)
              "score_2" (AwaitFetch 2000)) as (H1 & H2 & _).
  - by vm_compute.
  - discriminate.
  - right. by exists "score_1", true.
  - split; [by vm_compute|]. split; [exact H1|exact H2].
Defined.

(** ** background.js: a request the worker has lost *)

Lemma step_keeps_stranded (s : State) (ev : Event) (rid : string) (t : Z) (url : string) :
  storage s !! rid = Some (Processing t url) -> inflight s !! rid = None ->
  ~ displaces rid ev ->
  storage (step s ev).1 !! rid = Some (Processing t url) /\
  inflight (step s ev).1 !! rid = None.
Proof.
  intros Hst Hfl Hd.
  assert (Hfin : forall r c tt res now, inflight s !! r = Some c ->
            storage (finish s r tt res now).1 !! rid = Some (Processing t url) /\
            inflight (finish s r tt res now).1 !! rid = None).
  { intros r c tt res now Hr. unfold finish. simpl.
    map_cases rid r; [congruence|done]. }
  destruct ev as [r url' now|r now|r|r ok st now|r data now|r name msg now|r now|r| |];
    simpl in *.
  - map_cases rid r; done.
  - destruct (storage s !! r) as [[| |]|] eqn:Hr; simpl;
      try (destruct (pendingRequests s !! r)); simpl; try done;
      (map_cases rid r; [congruence|done]).
  - map_cases rid r; done.
  - destruct (inflight s !! r) as [[|]|] eqn:Hr; simpl; try done.
    map_cases rid r; [congruence|done].
  - destruct (inflight s !! r) as [[|]|] eqn:Hr; first [by eapply Hfin|done].
  - destruct (inflight s !! r) as [c|] eqn:Hr; first [by eapply Hfin|done].
  - destruct (inflight s !! r) as [[|]|] eqn:Hr; first [by eapply Hfin|done].
  - map_cases rid r; done.
  - split; [done|apply lookup_empty].
  - done.
Qed.

(** X13. A request whose call is lost stays processing for ever: once
    the worker has been terminated, a record left in the processing
    state is never completed; whatever network, timer and message
    events follow, short of a cancel, a removal by the popup, the purge
    at browser start or a new request under the same id, every status
    check for it answers processing, with the time since the start. *)
Theorem lost_request_stays_processing (s : State) (rid url : string) (t : Z)
    (evs : list Event) (now : Z) :
  storage s !! rid = Some (Processing t url) ->
  Forall (fun ev => ~ displaces rid ev) evs ->
  (step (exec s (WorkerTerminated :: evs)) (CHECK_REQUEST_STATUS rid now)).2
  = [StatusProcessing (now - t)].
Proof.
  intros Hst Hevs.
  assert (Hkeep : forall evs s0,
            storage s0 !! rid = Some (Processing t url) -> inflight s0 !! rid = None ->
            Forall (fun ev => ~ displaces rid ev) evs ->
            storage (exec s0 evs) !! rid = Some (Processing t url)).
  { clear. intros evs. induction evs as [|ev evs IH]; intros s0 Hs Hf Hall; [done|].
    apply Forall_cons in Hall as [Hev Hall]. simpl.
    destruct (step_keeps_stranded s0 ev rid t url Hs Hf Hev) as [Hs' Hf'].
    by apply IH. }
  simpl. rewrite (Hkeep evs _); [done|done|apply lookup_empty|done].
Qed.

Lemma lost_request_stays_processing_witness :
  (step (exec (exec init [BG_RESUME_SCORE "score_1" "https://example.org/job" 1000])
              [WorkerTerminated; FetchResolved "score_1" true 200 9000;
               BodyRead "score_1" (VObject "{score: 70}") 9100;
               TimerFired "score_1" 121000])
        (CHECK_REQUEST_STATUS "score_1" 500000)).2
  = [StatusProcessing 499000].
Proof.
  apply (lost_request_stays_processing
           (exec init [BG_RESUME_SCORE "score_1" "https://example.org/job" 1000])
           "score_1" "https://example.org/job" 1000
           [FetchResolved "score_1" true 200 9000;
            BodyRead "score_1" (VObject "{score: 70}") 9100;
            TimerFired "score_1" 121000] 500000).
  - by vm_compute.
  - repeat constructor; simpl; tauto.
Defined.

(** ** popup.js and background.js: polling, push and resumption *)

Lemma poll_idle (p : Popup.State) (s : State) (now : Z) :
  Popup.currentRequestId p = None -> poll p s now = (p, s).
Proof. intros H. unfold poll, Popup.checkRequestStatus. by rewrite H. Qed.

(** X14. A tick of the poller either leaves the popup polling, and then
    the deadline was not reached, the worker answered processing and its
    state is as before; or it ends the polling for good, and then the
    deadline was reached with nothing asked of the worker, or the worker
    holds no record of the request any more.  After it has ended, later
    ticks change neither side. *)
Theorem poll_continues_only_while_processing (p : Popup.State) (s : State) (now : Z)
    (rid : string) :
  Popup.currentRequestId p = Some rid ->
  let p' := (poll p s now).1 in
  let s' := (poll p s now).2 in
  (Popup.currentRequestId p' = Some rid /\ s' = s /\
   (Popup.elapsed_at p now < Popup.REQUEST_TIMEOUT)%Z /\
   exists e, (step s (CHECK_REQUEST_STATUS rid now)).2 = [StatusProcessing e]) \/
  (Popup.currentRequestId p' = None /\ Popup.pollingInterval p' = false /\
   ((Popup.REQUEST_TIMEOUT <= Popup.elapsed_at p now)%Z /\ s' = s \/
    storage s' !! rid = None) /\
   forall now', poll p' s' now' = (p', s')).
Proof.
  intros Hid p' s'. subst p' s'. unfold poll, Popup.checkRequestStatus. rewrite Hid.
  destruct (Popup.REQUEST_TIMEOUT <=? Popup.elapsed_at p now)%Z eqn:Hdl.
  - right. simpl. split; [done|]. split; [done|]. split.
    + left. split; [lia|done].
    + intros now'. first [done|by apply poll_idle].
  - assert (Hlt : (Popup.elapsed_at p now < Popup.REQUEST_TIMEOUT)%Z) by lia.
    cbn [step].
    destruct (storage s !! rid) as [[t u|d c e|err c e]|] eqn:Hst.
    + left. simpl. repeat split; eauto.
    + right. simpl. rewrite lookup_delete_eq. split; [done|]. split; [done|]. split; [by right|done].
    + right. simpl. rewrite lookup_delete_eq. split; [done|]. split; [done|]. split; [by right|done].
    + destruct (pendingRequests s !! rid) eqn:Hp.
      * left. simpl. repeat split; eauto.
      * right. simpl. split; [done|]. split; [done|]. split; [by right|done].
Qed.

Lemma poll_continues_only_while_processing_witness :
  let p := Popup.startPolling
             {| Popup.currentRequestId := None; Popup.pollingInterval := false;
                Popup.pollingStartTime := None; Popup.view := Popup.Blank;
                Popup.last_score_result := None |} "score_1" 1000 in
  let s := exec init [BG_RESUME_SCORE "score_1" "https://example.org/job" 1000;
                      FetchResolved "score_1" true 200 2500;
                      BodyRead "score_1" (VObject "{score: 70}") 2600] in
  Popup.currentRequestId (poll p s 3000).1 = None /\
  storage (poll p s 3000).2 !! "score_1" = None /\
  Popup.view (poll p s 3000).1 = Popup.Score (VObject "{score: 70}").
Proof.
  intros p s.
  destruct (poll_continues_only_while_processing p s 3000 "score_1" eq_refl)
    as [(H & _)|(H1 & _ & _ & _)].
  - by vm_compute in H.
  - split; [exact H1|]. split; by vm_compute.
Defined.

Lemma returned_failure (res : FetchResult) :
  ok res = false -> push_ok (returned res) = false /\ push_error (returned res) = VUndefined.
Proof. intros H. unfold returned. by rewrite H. Qed.

Lemma finish_failure_record (s : State) (rid : string) (t : Z) (res : FetchResult) (now : Z) :
  ok res = false ->
  exists err, value_truthy err = true /\
    storage (finish s rid t res now).1 !! rid
    = Some (Error err now (round_seconds (now - t))).
Proof.
  intros H. unfold finish. rewrite H. simpl. rewrite lookup_insert_eq.
  eexists. split; [|done]. by apply value_or_truthy, value_or_truthy.
Qed.

(** X15. The push hides the reason of a failure: the result a failed
    call resolves to carries no [error] property, so the popup, when
    the push reaches it, shows "Unknown error"; the record written for
    the same call holds the reason, and a status check would have shown
    it. *)
Theorem push_failure_hides_error (displays : JsValue -> bool) (p : Popup.State)
    (s : State) (rid : string) (t : Z) (res : FetchResult) (now : Z) :
  ok res = false ->
  Popup.currentRequestId p = Some rid ->
  (finish s rid t res now).2 = [SCORE_RESULT rid false] /\
  Popup.view (on_push displays p rid (returned res))
  = Popup.Failed (VString "Unknown error") /\
  exists err,
    value_truthy err = true /\
    storage (finish s rid t res now).1 !! rid
    = Some (Error err now (round_seconds (now - t))) /\
    forall e elapsed,
      Popup.view (Popup.on_response p e (StatusError err elapsed)) = Popup.Failed err.
Proof.
  intros Hok Hid. split; [|split].
  - unfold finish. simpl. by rewrite Hok.
  - destruct (returned_failure res Hok) as [H1 H2].
    unfold on_push. rewrite decide_True by done. by rewrite H1, H2.
  - destruct (finish_failure_record s rid t res now Hok) as (err & Ht & Hst).
    exists err. repeat split; [done..|].
    intros e elapsed. unfold Popup.on_response, value_or. by rewrite Ht.
Qed.

Lemma push_failure_hides_error_witness :
  let p := Popup.startPolling
             {| Popup.currentRequestId := None; Popup.pollingInterval := false;
                Popup.pollingStartTime := None; Popup.view := Popup.Blank;
                Popup.last_score_result := None |} "score_1" 1000 in
  let res := fetch_failure "AbortError" "The user aborted a request." 1000 121000 in
  Popup.view (on_push (fun _ => true) p "score_1" (returned res))
  = Popup.Failed (VString "Unknown error") /\
  storage (finish (step init (BG_RESUME_SCORE "score_1" "https://example.org/job" 1000)).1
                  "score_1" 1000 res 121000).1 !! "score_1"
  = Some (Error (VString "Request timed out after 120 seconds") 121000 120).
Proof.
  intros p res.
  destruct (push_failure_hides_error (fun _ => true) p
              (step init (BG_RESUME_SCORE "score_1" "https://example.org/job" 1000)).1
              "score_1" 1000 res 121000 eq_refl eq_refl) as (_ & H & _).
  split; [exact H|by vm_compute].
Defined.

(** What a search that finds nothing has seen. *)
Lemma pending_none (displays : JsValue -> bool) (entries : list (string * RequestState))
    (now : Z) (removed : list string) :
  checkPendingRequest displays entries now = (NoPending, removed) ->
  Forall (fun e => expired now e.2) entries /\ removed = entries.*1.
Proof.
  revert removed. induction entries as [|[r st] entries IH]; intros removed; simpl.
  - by intros [= <-].
  - destruct st as [t u|d c e|err c e]; [|by destruct (displays d)|done].
    destruct (now - t <? Popup.REQUEST_TIMEOUT)%Z eqn:Hlt; [done|].
    destruct (checkPendingRequest displays entries now) as [found rem] eqn:Hrec.
    intros [= -> <-]. destruct (IH rem eq_refl) as [Hall ->].
    split; [|done]. constructor; [simpl; lia|done].
Qed.






(** X17. A request resumed when the popup is opened keeps the deadline
    of its start: the poller is set up with the start time of the
    record, which is younger than the timeout, so it asks the worker at
    every tick before two minutes from the start of the request and
    gives up at the first tick from then on, however late the popup was
    opened. *)
Theorem resumed_request_keeps_deadline (displays : JsValue -> bool)
    (entries : list (string * RequestState)) (now : Z) (p : Popup.State)
    (rid : string) (t : Z) (elapsed remaining : string) (removed : list string) :
  checkPendingRequest displays entries now = (Resumed rid t elapsed remaining, removed) ->
  let p' := resumed_state p rid t elapsed remaining in
  (exists url, (rid, Processing t url) ∈ entries) /\
  (now - t < Popup.REQUEST_TIMEOUT)%Z /\
  (forall now', (now' < t + Popup.REQUEST_TIMEOUT)%Z ->
     Popup.checkRequestStatus p' now' = (p', Some rid)) /\
  (forall now', (t + Popup.REQUEST_TIMEOUT <= now')%Z ->
     Popup.checkRequestStatus p' now'
     = (Popup.show (Popup.stopPolling p') Popup.TimedOut, None)).
Proof.
  intros Hc p'.
  assert (Hfound : (exists url, (rid, Processing t url) ∈ entries) /\
                   (now - t < Popup.REQUEST_TIMEOUT)%Z).
  { revert removed Hc. induction entries as [|[r st] entries IH]; intros removed; simpl; [done|].
    destruct st as [t' u|d c e|err c e]; [|by destruct (displays d)|done].
    destruct (now - t' <? Popup.REQUEST_TIMEOUT)%Z eqn:Hlt.
    - intros [= -> -> _ _ _]. split; [exists u; by left|lia].
    - destruct (checkPendingRequest displays entries now) as [found rem] eqn:Hrec.
      intros [= -> <-]. destruct (IH rem eq_refl) as [[url Hin] Hlt'].
      split; [exists url; by right|done]. }
  destruct Hfound as [Hin Hlt]. repeat split; [done..| |].
  - intros now' Hn. unfold Popup.checkRequestStatus, Popup.elapsed_at. simpl.
    destruct (Popup.REQUEST_TIMEOUT <=? now' - t)%Z eqn:E; [lia|done].
  - intros now' Hn. unfold Popup.checkRequestStatus, Popup.elapsed_at. simpl.
    destruct (Popup.REQUEST_TIMEOUT <=? now' - t)%Z eqn:E; [done|lia].
Qed.

Lemma resumed_request_keeps_deadline_witness :
  let p := {| Popup.currentRequestId := None; Popup.pollingInterval := false;
              Popup.pollingStartTime := None; Popup.view := Popup.Blank;
              Popup.last_score_result := None |} in
  let p' := resumed_state p "score_2" 100000 "1m 30s" "30s" in
  Popup.checkRequestStatus p' 219999 = (p', Some "score_2") /\
  Popup.checkRequestStatus p' 220000
  = (Popup.show (Popup.stopPolling p') Popup.TimedOut, None).
Proof.
  intros p p'.
  destruct (resumed_request_keeps_deadline (fun _ => true)
              [("score_1", Processing 1000 "https://example.org/a");
               ("score_2", Processing 100000 "https://example.org/b")]
              190000 p "score_2" 100000 "1m 30s" "30s" ["score_1"])
    as (_ & _ & H1 & H2).
  - by vm_compute.
  - split; [apply H1; by vm_compute|apply H2; by vm_compute].
Defined.

(** X18. What the search for pending requests removes: first the
    keys of processing records older than the timeout that it passes,
    then the key of the one finished record it shows, if it shows one,
    and nothing else; so a processing record younger than the timeout
    is never removed, and at most one finished record is taken per
    opening of the popup.  When the search finds nothing, every record
    was an expired one and all are removed. *)
Theorem pending_search_removals (displays : JsValue -> bool)
    (entries : list (string * RequestState)) (now : Z) (found : Pending)
    (removed : list string) :
  checkPendingRequest displays entries now = (found, removed) ->
  (exists skipped,
     removed = (skipped ++ taken found)%list /\
     Forall (fun r => exists st, (r, st) ∈ entries /\ expired now st) skipped) /\
  (forall r, r ∈ taken found -> exists st, (r, st) ∈ entries /\ terminal st) /\
  (found = NoPending ->
     Forall (fun e => expired now e.2) entries /\ removed = entries.*1).
Proof.
  intros Hc. split; [|split].
  - revert found removed Hc.
    induction entries as [|[r0 st] entries IH]; intros found removed; simpl.
    + intros [= <- <-]. by exists [].
    + destruct st as [t u|d c e|err c e].
      * destruct (now - t <? Popup.REQUEST_TIMEOUT)%Z eqn:Hlt.
        { intros [= <- <-]. by exists []. }
        destruct (checkPendingRequest displays entries now) as [f rem] eqn:Hrec.
        intros [= <- <-]. destruct (IH f rem eq_refl) as (skipped & -> & Hall).
        exists (r0 :: skipped). split; [done|]. constructor.
        { exists (Processing t u). split; [by left|simpl; lia]. }
        eapply Forall_impl; [exact Hall|]. intros r (st & Hin & Hex).
        exists st. split; [by right|done].
      * destruct (displays d); intros [= <- <-]; by exists [].
      * intros [= <- <-]. by exists [].
  - revert found removed Hc.
    induction entries as [|[r0 st] entries IH]; intros found removed; simpl.
    + intros [= <- <-] r Hr. by apply elem_of_nil in Hr.
    + destruct st as [t u|d c e|err c e].
      * destruct (now - t <? Popup.REQUEST_TIMEOUT)%Z eqn:Hlt.
        { intros [= <- <-] r Hr. by apply elem_of_nil in Hr. }
        destruct (checkPendingRequest displays entries now) as [f rem] eqn:Hrec.
        intros [= <- <-] r Hr. destruct (IH f rem eq_refl r Hr) as (st & Hin & Ht).
        exists st. split; [by right|done].
      * destruct (displays d); intros [= <- <-] r Hr.
        { apply list_elem_of_singleton in Hr as ->.
          exists (Complete d c e). split; [by left|done]. }
        by apply elem_of_nil in Hr.
      * intros [= <- <-] r Hr. apply list_elem_of_singleton in Hr as ->.
        exists (Error err c e). split; [by left|done].
  - intros ->. by apply (pending_none displays).
Qed.

Lemma pending_search_removals_witness :
  let entries :=
    [("score_1", Processing 1000 "https://example.org/a");
     ("score_2", Error (VString "Request timed out after 120 seconds") 250000 120);
     ("score_3", Complete (VObject "{score: 70}") 260000 30)] in
  let found := FoundError "score_2" (VString "Request timed out after 120 seconds") in
  checkPendingRequest (fun _ => true) entries 300000 = (found, ["score_1"; "score_2"]) /\
  exists st, ("score_2", st) ∈ entries /\ terminal st.
Proof.
  intros entries found. split; [by vm_compute|].
  destruct (pending_search_removals (fun _ => true) entries 300000 found
              ["score_1"; "score_2"] eq_refl) as (_ & H & _).
  apply (H "score_2"). apply elem_of_cons. by left.
Defined.



(** ** popup.js and utils/autofill.js: the uploaded file *)


Lemma list_ind3 {A} (P : list A -> Prop) :
  P [] -> (forall a, P [a]) -> (forall a b, P [a; b]) ->
  (forall a b c r, P r -> P (a :: b :: c :: r)) ->
  forall l, P l.
Proof.
  intros H0 H1 H2 H3 l.
  assert (H : P l /\ (forall a, P (a :: l)) /\ (forall a b, P (a :: b :: l))).
  { induction l as [|c l (IH0 & IH1 & IH2)]; [done|].
    split; [apply IH1|]. split; [intros a; apply IH2|]. intros a b. by apply H3. }
  apply H.
Qed.

Lemma string_of_list_app (a b : list ascii) :
  string_of_list_ascii (a ++ b)%list = string_of_list_ascii a ++ string_of_list_ascii b.
Proof. induction a as [|c a IH]; [done|]. simpl. by rewrite IH. Qed.

Lemma binaryParts_join (fuel : nat) (bytes : list ascii) :
  (length bytes <= fuel)%nat ->
  join (binaryParts fuel bytes) = string_of_list_ascii bytes.
Proof.
  revert bytes. induction fuel as [|fuel IH]; intros bytes Hlen.
  - destruct bytes; [done|simpl in Hlen; lia].
  - destruct bytes as [|b bytes]; [done|].
    change (join (binaryParts (S fuel) (b :: bytes)))
      with (string_of_list_ascii (take chunkSize (b :: bytes))
            ++ join (binaryParts fuel (drop chunkSize (b :: bytes)))).
    rewrite IH.
    + by rewrite <- string_of_list_app, take_drop.
    + rewrite length_drop. simpl in *. unfold chunkSize. lia.
Qed.

Lemma binary_string_bytes (bytes : list ascii) :
  binary_string bytes = string_of_list_ascii bytes.
Proof. by apply binaryParts_join. Qed.

Lemma base64_char_spec (n : N) :
  (n < 64)%N ->
  Base64.sextet (base64_char n) = Some n /\
  Base64.is_pad (base64_char n) = false /\
  Base64.ascii_ws (base64_char n) = false.
Proof.
  intros Hn.
  assert (Hall : forallb (fun k =>
            match Base64.sextet (base64_char (N.of_nat k)) with
            | Some m => (m =? N.of_nat k)%N
            | None => false
            end
            && negb (Base64.is_pad (base64_char (N.of_nat k)))
            && negb (Base64.ascii_ws (base64_char (N.of_nat k)))) (seq 0 64) = true)
    by by vm_compute.
  rewrite forallb_forall in Hall.
  specialize (Hall (N.to_nat n)). rewrite N2Nat.id in Hall.
  assert (Hin : In (N.to_nat n) (seq 0 64)) by (apply in_seq; lia).
  apply Hall in Hin. apply andb_prop in Hin as [Hin Hws]. apply andb_prop in Hin as [Hs Hp].
  destruct (Base64.sextet (base64_char n)) as [m|]; [|done].
  apply N.eqb_eq in Hs as ->.
  by destruct (Base64.is_pad _), (Base64.ascii_ws _).
Qed.

Lemma div_mul_add (a b c : N) :
  (b < c)%N -> ((a * c + b) / c = a)%N /\ ((a * c + b) mod c = b)%N.
Proof.
  intros Hb. split; symmetry.
  - apply (N.div_unique _ c a b); lia.
  - apply (N.mod_unique _ c a b); lia.
Qed.

Lemma byte_parts (x d : N) :
  (d <> 0)%N -> (x = x / d * d + x mod d)%N /\ (x mod d < d)%N.
Proof.
  intros Hd. split; [|by apply N.mod_lt].
  rewrite (N.div_mod x d) at 1 by done. lia.
Qed.

Lemma sextet_ranges (x y z : N) :
  (x < 256)%N -> (y < 256)%N -> (z < 256)%N ->
  (x / 4 < 64)%N /\ ((x mod 4) * 16 + y / 16 < 64)%N /\
  ((y mod 16) * 4 + z / 64 < 64)%N /\ (z mod 64 < 64)%N /\
  ((x mod 4) * 16 < 64)%N /\ ((y mod 16) * 4 < 64)%N.
Proof.
  intros Hx Hy Hz.
  destruct (byte_parts x 4) as [Ex Rx]; [done|].
  destruct (byte_parts y 16) as [Ey Ry]; [done|].
  destruct (byte_parts z 64) as [Ez Rz]; [done|].
  revert Ex Rx Ey Ry Ez Rz.
  generalize (x / 4)%N (x mod 4)%N (y / 16)%N (y mod 16)%N (z / 64)%N (z mod 64)%N.
  intros. lia.
Qed.

Lemma sextet_bytes (x y z : N) :
  (x < 256)%N -> (y < 256)%N -> (z < 256)%N ->
  ((x / 4 * 4 + ((x mod 4) * 16 + y / 16) / 16) mod 256 = x)%N /\
  (((((x mod 4) * 16 + y / 16) mod 16) * 16 + ((y mod 16) * 4 + z / 64) / 4) mod 256 = y)%N /\
  (((((y mod 16) * 4 + z / 64) mod 4) * 64 + z mod 64) mod 256 = z)%N /\
  ((x / 4 * 4 + ((x mod 4) * 16) / 16) mod 256 = x)%N /\
  (((((x mod 4) * 16 + y / 16) mod 16) * 16 + ((y mod 16) * 4) / 4) mod 256 = y)%N.
Proof.
  intros Hx Hy Hz.
  destruct (byte_parts x 4) as [Ex Rx]; [done|].
  destruct (byte_parts y 16) as [Ey Ry]; [done|].
  destruct (byte_parts z 64) as [Ez Rz]; [done|].
  assert (Qy : (y / 16 < 16)%N) by (apply N.Div0.div_lt_upper_bound; lia).
  assert (Qz : (z / 64 < 4)%N) by (apply N.Div0.div_lt_upper_bound; lia).
  destruct (div_mul_add (x mod 4) (y / 16) 16 Qy) as [-> ->].
  destruct (div_mul_add (y mod 16) (z / 64) 4 Qz) as [-> ->].
  rewrite !N.div_mul by done.
  rewrite <- Ex, <- Ey, <- Ez.
  rewrite !N.mod_small by done. done.
Qed.
Lemma base64_encode_split (l : list ascii) :
  base64_encode l = (base64_body l ++ base64_padding l)%list.
Proof.
  induction l as [| | |a b c r IH] using list_ind3; [done..|].
  cbn [base64_encode base64_body base64_padding]. rewrite IH. done.
Qed.

Lemma base64_body_chars (l : list ascii) :
  Forall (fun c => Base64.is_pad c = false /\ Base64.ascii_ws c = false) (base64_body l).
Proof.
  induction l as [|a|a b|a b c r IH] using list_ind3; cbn [base64_body].
  - constructor.
  - destruct (sextet_ranges (N_of_ascii a) 0 0) as (H1 & _ & _ & _ & H5 & _);
      [apply N_ascii_bounded|done..|].
    repeat constructor; by apply base64_char_spec.
  - destruct (sextet_ranges (N_of_ascii a) (N_of_ascii b) 0) as (H1 & H2 & _ & _ & _ & H6);
      [apply N_ascii_bounded..|done|].
    repeat constructor; by apply base64_char_spec.
  - destruct (sextet_ranges (N_of_ascii a) (N_of_ascii b) (N_of_ascii c))
      as (H1 & H2 & H3 & H4 & _); [apply N_ascii_bounded..|].
    repeat (constructor; [by apply base64_char_spec|]). done.
Qed.

Lemma byte_of_ascii (a : ascii) (n : N) :
  (n mod 256 = N_of_ascii a)%N -> Base64.byte n = a.
Proof. intros H. unfold Base64.byte. rewrite H. apply ascii_N_embedding. Qed.

Lemma base64_body_decodes (l : list ascii) :
  exists vs, Base64.sextets (base64_body l) = Some vs /\ Base64.bytes_of vs = l.
Proof.
  induction l as [|a|a b|a b c r (vs & Hs & Hb)] using list_ind3; cbn [base64_body].
  - by exists [].
  - destruct (sextet_ranges (N_of_ascii a) 0 0) as (H1 & _ & _ & _ & H5 & _);
      [apply N_ascii_bounded|done..|].
    destruct (sextet_bytes (N_of_ascii a) 0 0) as (_ & _ & _ & B4 & _);
      [apply N_ascii_bounded|done..|].
    eexists. cbn [Base64.sextets].
    rewrite (proj1 (base64_char_spec _ H1)), (proj1 (base64_char_spec _ H5)).
    split; [done|]. cbn [Base64.bytes_of]. by rewrite (byte_of_ascii a).
  - destruct (sextet_ranges (N_of_ascii a) (N_of_ascii b) 0) as (H1 & H2 & _ & _ & _ & H6);
      [apply N_ascii_bounded..|done|].
    destruct (sextet_bytes (N_of_ascii a) (N_of_ascii b) 0) as (B1 & _ & _ & _ & B5);
      [apply N_ascii_bounded..|done|].
    eexists. cbn [Base64.sextets].
    rewrite (proj1 (base64_char_spec _ H1)), (proj1 (base64_char_spec _ H2)),
      (proj1 (base64_char_spec _ H6)).
    split; [done|]. cbn [Base64.bytes_of].
    by rewrite (byte_of_ascii a), (byte_of_ascii b).
  - destruct (sextet_ranges (N_of_ascii a) (N_of_ascii b) (N_of_ascii c))
      as (H1 & H2 & H3 & H4 & _); [apply N_ascii_bounded..|].
    destruct (sextet_bytes (N_of_ascii a) (N_of_ascii b) (N_of_ascii c))
      as (B1 & B2 & B3 & _); [apply N_ascii_bounded..|].
    exists (N_of_ascii a / 4 :: (N_of_ascii a mod 4) * 16 + N_of_ascii b / 16
            :: (N_of_ascii b mod 16) * 4 + N_of_ascii c / 64 :: N_of_ascii c mod 64 :: vs)%N.
    cbn [Base64.sextets].
    rewrite (proj1 (base64_char_spec _ H1)), (proj1 (base64_char_spec _ H2)),
      (proj1 (base64_char_spec _ H3)), (proj1 (base64_char_spec _ H4)), Hs.
    split; [done|]. cbn [Base64.bytes_of].
    by rewrite (byte_of_ascii a), (byte_of_ascii b), (byte_of_ascii c), Hb.
Qed.

Lemma mod4_step (n : nat) : (S (S (S (S n))) mod 4 = n mod 4)%nat.
Proof.
  change (S (S (S (S n)))) with (4 + n)%nat.
  rewrite Nat.Div0.add_mod. change (4 mod 4)%nat with 0%nat.
  rewrite Nat.add_0_l. apply Nat.Div0.mod_mod.
Qed.

Lemma base64_lengths (l : list ascii) :
  (length (base64_encode l) mod 4 = 0)%nat /\ (length (base64_body l) mod 4 <> 1)%nat.
Proof.
  induction l as [| | |a b c r [IH1 IH2]] using list_ind3; [by vm_compute..|].
  cbn [base64_encode base64_body length]. by rewrite !mod4_step.
Qed.

Lemma base64_padding_cases (l : list ascii) :
  base64_padding l = [] \/
  base64_body l <> [] /\
  (base64_padding l = ["="%char] \/ base64_padding l = ["="%char; "="%char]).
Proof.
  induction l as [|a|a b|a b c r IH] using list_ind3;
    [by left|right; split; [done|by right]|right; split; [done|by left]|].
  cbn [base64_padding base64_body].
  destruct IH as [IH|[_ IH]]; [by left|right; split; [done|done]].
Qed.

Lemma strip_padding_encode (l : list ascii) :
  Base64.strip_padding (base64_encode l) = base64_body l.
Proof.
  rewrite base64_encode_split.
  pose proof (base64_body_chars l) as Hchars.
  assert (Hlast : forall a r, rev (base64_body l) = a :: r -> Base64.is_pad a = false).
  { intros a r Hr. rewrite Forall_forall in Hchars.
    apply Hchars. apply list_elem_of_In, in_rev. rewrite Hr. by left. }
  pose proof (base64_padding_cases l) as Hpad.
  unfold Base64.strip_padding.
  destruct Hpad as [->|[Hne [->| ->]]].
  - rewrite app_nil_r. destruct (rev (base64_body l)) as [|a [|b r]] eqn:Hr.
    + done.
    + by rewrite (Hlast a [] eq_refl).
    + by rewrite (Hlast a (b :: r) eq_refl).
  - rewrite rev_app_distr. cbn [rev app].
    destruct (rev (base64_body l)) as [|b r] eqn:Hr.
    + exfalso. apply Hne. apply (f_equal (@rev ascii)) in Hr.
      by rewrite rev_involutive in Hr.
    + assert (Hb : base64_body l = rev (b :: r)) by (by rewrite <- Hr, rev_involutive).
      change (Base64.is_pad "=") with true. cbn iota.
      rewrite (Hlast b r eq_refl). by rewrite Hb.
  - rewrite rev_app_distr. cbn [rev app].
    change (Base64.is_pad "=") with true. cbn iota. apply rev_involutive.
Qed.

Lemma atob_btoa (s : string) : Base64.atob (btoa s) = Normal s.
Proof.
  unfold Base64.atob, btoa. rewrite list_ascii_of_string_of_list_ascii.
  set (l := list_ascii_of_string s).
  assert (Hf : filter (fun c => Base64.ascii_ws c = false) (base64_encode l)
               = base64_encode l).
  { rewrite base64_encode_split. rewrite filter_app. f_equal.
    - pose proof (base64_body_chars l) as H. induction H as [|c r [_ Hc] _ IH]; [done|].
      rewrite filter_cons_True by done. by rewrite IH.
    - clear. induction l as [| | |a b c r IH] using list_ind3; done. }
  rewrite Hf. destruct (base64_lengths l) as [H0 H1].
  apply Nat.eqb_eq in H0. rewrite H0. rewrite strip_padding_encode.
  apply Nat.eqb_neq in H1. rewrite H1.
  destruct (base64_body_decodes l) as (vs & -> & ->).
  subst l. by rewrite string_of_list_ascii_of_string.
Qed.
Example btoa_hello : btoa "Hello, world!" = "SGVsbG8sIHdvcmxkIQ==".
Proof. reflexivity. Qed.

Example btoa_paddings : btoa "ab" = "YWI=" /\ btoa "abc" = "YWJj" /\ btoa "" = "".
Proof. repeat split; reflexivity. Qed.

Lemma btoa_truthy (l : list ascii) :
  Js.truthy (btoa (string_of_list_ascii l)) = bool_decide (l <> []).
Proof.
  unfold btoa. rewrite list_ascii_of_string_of_list_ascii.
  destruct l as [|a [|b [|c r]]]; done.
Qed.

(** X20. The file attached to the form is the file that was uploaded:
    the upload handler's chunked conversion and [btoa], followed by
    [setValue]'s [atob], give back the bytes one for one, so a file
    control is given a file with the uploaded bytes and type (PDF when
    the type is empty), and the two events are dispatched.  The name is
    the escaped one.  An empty file is stored with empty data and is
    never attached: the control is clicked instead. *)
Theorem uploaded_file_is_attached (r : ref) (e : Element) (f : UploadedFile)
    (val : string) (log : list Effect) :
  is_file_input e = true ->
  setValue (Some (r, e)) val (Some (resume_file_of f)) log
  = if decide (f_bytes f = [])
    then (Normal false, (log ++ [Click r])%list)
    else (Normal true,
          (log ++ [SetFiles r {| file_bytes := string_of_list_ascii (f_bytes f);
                                 file_name := escapeHtml (f_name f);
                                 file_type := Js.or_else (f_type f) "application/pdf" |};
                   Dispatch r "change"; Dispatch r "input"])%list).
Proof.
  intros Hfile. unfold setValue, try_catch_M. rewrite Hfile.
  unfold resume_file_of. cbn [rf_data]. rewrite binary_string_bytes, btoa_truthy.
  destruct (decide (f_bytes f = [])) as [Hnil|Hne].
  - rewrite bool_decide_false by (intros H; by apply H). done.
  - rewrite bool_decide_true by done.
    unfold mbind, M_bind, bind, lift, emit, mret, M_ret, ret.
    rewrite atob_btoa. unfold file_of. cbn [rf_name rf_type].
    by rewrite <- !app_assoc.
Qed.
Lemma uploaded_file_is_attached_witness :
  setValue (Some ([0%nat], input_file []))
    "" (Some (resume_file_of {| f_name := "R&D resume.pdf"; f_type := "";
                                f_bytes := list_ascii_of_string "%PDF-1.4" |})) []
  = (Normal true,
     [SetFiles [0%nat] {| file_bytes := "%PDF-1.4"; file_name := "R&amp;D resume.pdf";
                          file_type := "application/pdf" |};
      Dispatch [0%nat] "change"; Dispatch [0%nat] "input"]).
Proof.
  exact (uploaded_file_is_attached [0%nat] (input_file [])
           {| f_name := "R&D resume.pdf"; f_type := "";
              f_bytes := list_ascii_of_string "%PDF-1.4" |} "" [] eq_refl).
Defined.

Lemma list_ascii_of_string_app (a b : string) :
  list_ascii_of_string (a ++ b) = (list_ascii_of_string a ++ list_ascii_of_string b)%list.
Proof.
  induction a as [|c a IH]; [done|].
  change (String c a ++ b) with (String c (a ++ b)). simpl. by rewrite IH.
Qed.

Lemma string_length_app (a b : string) :
  String.length (a ++ b) = (String.length a + String.length b)%nat.
Proof.
  induction a as [|c a IH]; [done|].
  change (String c a ++ b) with (String c (a ++ b)). simpl. by rewrite IH.
Qed.

Lemma escape_char_plain (c : ascii) : plain_char c = true -> escape_char c = String c "".
Proof.
  unfold plain_char, escape_char.
  destruct (Ascii.eqb c "&"), (Ascii.eqb c "<"), (Ascii.eqb c ">"),
    (nat_of_ascii c =? 160)%nat; done.
Qed.

Lemma escape_char_length (c : ascii) :
  ((if plain_char c then 1 else 4) <= String.length (escape_char c))%nat.
Proof.
  unfold plain_char, escape_char.
  destruct (Ascii.eqb c "&"), (Ascii.eqb c "<"), (Ascii.eqb c ">"),
    (nat_of_ascii c =? 160)%nat; simpl; lia.
Qed.

Lemma escape_char_markup_free (c : ascii) :
  Forall (fun x => x <> "<"%char /\ x <> ">"%char) (list_ascii_of_string (escape_char c)).
Proof.
  unfold escape_char.
  destruct (Ascii.eqb c "&") eqn:E1; [by repeat constructor|].
  destruct (Ascii.eqb c "<") eqn:E2; [by repeat constructor|].
  destruct (Ascii.eqb c ">") eqn:E3; [by repeat constructor|].
  destruct (nat_of_ascii c =? 160)%nat; [by repeat constructor|].
  apply Ascii.eqb_neq in E2, E3. by repeat constructor.
Qed.

Lemma escape_text_length (s : string) :
  (String.length s <= String.length (escape_text s))%nat /\
  (plain_text s = false -> (String.length s < String.length (escape_text s))%nat).
Proof.
  induction s as [|c s [IH1 IH2]]; [done|].
  cbn [escape_text plain_text]. rewrite string_length_app.
  pose proof (escape_char_length c) as Hc. cbn [String.length].
  destruct (plain_char c); simpl.
  - split; [lia|]. intros H. specialize (IH2 H). lia.
  - split; [lia|]. intros _. lia.
Qed.

(** X21. What [escapeHtml] gives back holds no angle bracket, so it
    cannot open or close a tag where it is put into markup; and it is
    the text itself exactly when the text has no ampersand, angle
    bracket or no-break space: any other text, a file name with an
    ampersand for one, is stored changed. *)
Theorem escapeHtml_markup_free (text : string) :
  Forall (fun c => c <> "<"%char /\ c <> ">"%char) (list_ascii_of_string (escapeHtml text)) /\
  (escapeHtml text = text <-> plain_text text = true).
Proof.
  assert (He : escapeHtml text = escape_text text).
  { unfold escapeHtml. by destruct text. }
  rewrite He. split.
  - induction text as [|c s IH]; [constructor|].
    cbn [escape_text]. rewrite list_ascii_of_string_app. apply Forall_app.
    split; [apply escape_char_markup_free|]. apply IH. unfold escapeHtml. by destruct s.
  - split.
    + intros Heq. destruct (plain_text text) eqn:Hp; [done|].
      destruct (escape_text_length text) as [_ Hlt]. specialize (Hlt Hp).
      rewrite Heq in Hlt. lia.
    + clear He. induction text as [|c s IH]; [done|].
      cbn [plain_text escape_text]. intros [Hc Hs]%andb_prop.
      by rewrite (escape_char_plain c Hc), (IH Hs).
Qed.

Example escapeHtml_file_name :
  escapeHtml "R&D <final>.pdf" = "R&amp;D &lt;final&gt;.pdf" /\ escapeHtml "" = "".
Proof. split; reflexivity. Qed.

(** ** utils/autofill.js: [fallbackFill] *)

Lemma fallbackFill_set_effects (doc : Node) (email phone : option string) (f : Field.t)
    (v : string) (log : list Effect) :
  (email = Some v \/ phone = Some v) -> Js.truthy v = true ->
  exists added,
    (fallbackFill_set doc f v log).2 = (log ++ added)%list /\
    Forall (fallback_effect email phone) added.
Proof.
  intros Hv Ht. unfold fallbackFill_set.
  destruct (fallback_element doc f) as [[[r e]|]|err];
    [destruct (is_file_input e)|..]; simpl.
  - exists []. rewrite app_nil_r. split; [done|constructor].
  - exists [SetValue r v; Dispatch r "input"]. split; [done|].
    constructor; [|constructor; [done|constructor]].
    split; [done|]. intros ->. done.
  - exists []. rewrite app_nil_r. split; [done|constructor].
  - exists []. rewrite app_nil_r. split; [done|constructor].
Qed.

Lemma fallbackFill_field_effects (doc : Node) (email phone : option string) (f : Field.t)
    (log : list Effect) :
  exists added,
    (fallbackFill_field doc email phone f log).2 = (log ++ added)%list /\
    Forall (fallback_effect email phone) added.
Proof.
  unfold fallbackFill_field.
  set (key := Js.toLowerCase (Js.or_else (Field.label_text f) "")).
  assert (H1 : exists added1,
            (match email with
             | Some v =>
                 if Js.includes key "email" && Js.truthy v
                 then fallbackFill_set doc f v log else (None, log)
             | None => (None, log)
             end).2 = (log ++ added1)%list /\
            Forall (fallback_effect email phone) added1).
  { destruct email as [v|]; [|exists []; rewrite app_nil_r; split; [done|constructor]].
    destruct (Js.includes key "email"); [|exists []; rewrite app_nil_r; split; [done|constructor]].
    destruct (Js.truthy v) eqn:Ht; [|exists []; rewrite app_nil_r; split; [done|constructor]].
    apply fallbackFill_set_effects; [by left|done]. }
  destruct H1 as (added1 & E1 & F1).
  destruct (match email with Some _ => _ | None => _ end) as [[err|] log1];
    simpl in E1; subst log1; [by exists added1|].
  assert (H2 : exists added2,
            (match phone with
             | Some v =>
                 if Js.includes key "phone" && Js.truthy v
                 then fallbackFill_set doc f v (log ++ added1)%list
                 else (None, (log ++ added1)%list)
             | None => (None, (log ++ added1)%list)
             end).2 = ((log ++ added1) ++ added2)%list /\
            Forall (fallback_effect email phone) added2).
  { destruct phone as [v|]; [|exists []; rewrite app_nil_r; split; [done|constructor]].
    destruct (Js.includes key "phone"); [|exists []; rewrite app_nil_r; split; [done|constructor]].
    destruct (Js.truthy v) eqn:Ht; [|exists []; rewrite app_nil_r; split; [done|constructor]].
    apply fallbackFill_set_effects; [by right|done]. }
  destruct H2 as (added2 & E2 & F2).
  exists (added1 ++ added2)%list. rewrite E2, app_assoc. split; [done|].
  by apply Forall_app.
Qed.

Lemma fallbackFill_loop_effects (doc : Node) (email phone : option string)
    (fields : list Field.t) (log : list Effect) :
  exists added,
    (fallbackFill_loop doc email phone fields log).2 = (log ++ added)%list /\
    Forall (fallback_effect email phone) added.
Proof.
  revert log. induction fields as [|f fields IH]; intros log; simpl.
  - exists []. rewrite app_nil_r. split; [done|constructor].
  - destruct (fallbackFill_field_effects doc email phone f log) as (added1 & E1 & F1).
    destruct (fallbackFill_field doc email phone f log) as [[err|] log1];
      simpl in E1; subst log1; [by exists added1|].
    destruct (IH (log ++ added1)%list) as (added2 & E2 & F2).
    exists (added1 ++ added2)%list. rewrite E2, app_assoc. split; [done|].
    by apply Forall_app.
Qed.

Lemma fallbackFill_loop_nothing (doc : Node) (fields : list Field.t) (log : list Effect) :
  fallbackFill_loop doc None None fields log = (None, log).
Proof. induction fields as [|f fields IH]; [done|]. simpl. by rewrite IH. Qed.

(** X22. The fill-in of last resort only writes what it has read in the
    resume: whatever the page and the fields, and whether or not it is
    cut short by an exception, every effect of [fallbackFill] is the
    writing of the first e-mail address or the first phone number of the
    resume text, not empty, or an [input] event; it never clicks,
    focuses, attaches a file or dispatches [change].  Without resume
    text it does nothing. *)
Theorem fallbackFill_effects (doc : Node) (fields : list Field.t)
    (parsed_resume : option ParsedResume) (log : list Effect) :
  (exists added,
     (fallbackFill doc fields parsed_resume log).2 = (log ++ added)%list /\
     Forall (fallback_effect (first_email (resume_text parsed_resume))
                             (first_phone (resume_text parsed_resume))) added) /\
  (resume_text parsed_resume = "" ->
   fallbackFill doc fields parsed_resume log = (None, log)).
Proof.
  split; [apply fallbackFill_loop_effects|].
  intros H. unfold fallbackFill. rewrite H. apply fallbackFill_loop_nothing.
Qed.

Example fallbackFill_contact :
  fallbackFill doc_contact [field_email; field_cv]
    (Some {| raw_text := Some "Jane Doe <jane.doe@mail.example.org>, tel +1 555-1234567";
             filename := Some "jane.pdf" |}) []
  = (None, [SetValue [1; 0; 0]%nat "jane.doe@mail.example.org";
            Dispatch [1; 0; 0]%nat "input"]).
Proof. by vm_compute. Qed.

(** ** utils/detect.js: the form of a label *)

Lemma trimEnd_cons (c : ascii) (s : string) :
  Js.trimEnd (String c s)
  = match Js.trimEnd s with
    | EmptyString => if Js.is_space c then EmptyString else String c EmptyString
    | t => String c t
    end.
Proof. done. Qed.

Lemma trimEnd_idem (s : string) : Js.trimEnd (Js.trimEnd s) = Js.trimEnd s.
Proof.
  induction s as [|c s IH]; [done|].
  rewrite trimEnd_cons. destruct (Js.trimEnd s) as [|d t] eqn:Ht.
  - destruct (Js.is_space c) eqn:Hc; [done|].
    rewrite trimEnd_cons. simpl. by rewrite Hc.
  - rewrite trimEnd_cons, IH. done.
Qed.

Lemma trimStart_head (s : string) :
  Js.trimStart s = "" \/
  exists c s', Js.trimStart s = String c s' /\ Js.is_space c = false.
Proof.
  induction s as [|c s IH]; [by left|]. simpl.
  destruct (Js.is_space c) eqn:Hc; [done|]. right. by exists c, s.
Qed.

Lemma trimStart_trimEnd (c : ascii) (s : string) :
  Js.is_space c = false -> Js.trimStart (Js.trimEnd (String c s)) = Js.trimEnd (String c s).
Proof.
  intros Hc. rewrite trimEnd_cons. destruct (Js.trimEnd s); rewrite ?Hc; simpl; by rewrite Hc.
Qed.

Lemma trim_idem (s : string) : Js.trim (Js.trim s) = Js.trim s.
Proof.
  unfold Js.trim. destruct (trimStart_head s) as [->|(c & s' & -> & Hc)]; [done|].
  by rewrite trimStart_trimEnd, trimEnd_idem.
Qed.

Lemma label_text_of_trimmed (o : option (ref * Element)) (t : string) :
  label_text_of o = Some t -> Js.trim t = t.
Proof.
  destruct o as [[r e]|]; [|done]. unfold label_text_of.
  destruct (_ && _); [|done]. intros [= <-]. apply trim_idem.
Qed.

Lemma strategy_siblings_trimmed (doc : Node) (prev : option ref) (n : nat) (t : string) :
  strategy_siblings doc prev n = Some t -> Js.trim t = t.
Proof.
  revert prev. induction n as [|n IH]; intros prev; [done|]. simpl.
  destruct prev as [q|]; [|done]. destruct (elem_at doc q) as [pe|]; [|done].
  destruct (_ && _); [intros [= <-]; apply trim_idem|].
  destruct (_ && _); [intros [= <-]; apply trim_idem|]. apply IH.
Qed.

Lemma strategy_heading_found (doc : Node) (node : ref) (n : nat) (t : string) :
  strategy_heading doc node n = Some t -> Js.trim t = t /\ t <> "".
Proof.
  revert node. induction n as [|n IH]; intros node; [done|]. simpl.
  destruct (parentElement node) as [parent|]; [|done].
  destruct (label_text_of _) as [t'|] eqn:Hl; [|apply IH].
  intros [= <-]. split; [by eapply label_text_of_trimmed|by eapply label_text_of_nonempty].
Qed.

Lemma getLabelForElement_form (doc : Node) (el : ref) (t : string) :
  getLabelForElement doc el = Normal t ->
  Js.trim t = t /\
  (t = "" ->
   strategy_siblings doc (previousElementSibling el) 4 = Some "" \/
   exists e, elem_at doc el = Some e /\ strategy_aria_label e = Some "").
Proof.
  unfold getLabelForElement. destruct (elem_at doc el) as [e|]; [|done].
  destruct (strategy_label_for doc e) as [[t1|]|] eqn:H1; [| |done]; cbn [cbind].
  { intros [= <-]. split.
    - unfold strategy_label_for in H1. destruct (Js.truthy (el_id e)); [|done].
      destruct (querySelector_attr _ _ _ _) as [lab|]; [|done]. simpl in H1.
      injection H1 as H1. by eapply label_text_of_trimmed.
    - intros ->. by apply strategy_label_for_nonempty in H1. }
  destruct (strategy_parent_label doc el) as [t2|] eqn:H2.
  { intros [= <-]. split; [by eapply label_text_of_trimmed|].
    intros ->. by apply label_text_of_nonempty in H2. }
  destruct (strategy_labelledby doc e) as [t3|] eqn:H3.
  { intros [= <-]. split.
    - unfold strategy_labelledby in H3. destruct (getAttribute e "aria-labelledby"); [|done].
      destruct (Js.truthy _); [|done]. by eapply label_text_of_trimmed.
    - intros ->. by apply strategy_labelledby_nonempty in H3. }
  destruct (strategy_siblings doc (previousElementSibling el) 4) as [t4|] eqn:H4.
  { intros [= <-]. split; [by eapply strategy_siblings_trimmed|]. intros ->. by left. }
  destruct (strategy_placeholder e) as [t5|] eqn:H5.
  { intros [= <-]. unfold strategy_placeholder in H5.
    destruct (el_placeholder e) as [ph|]; [|done].
    destruct (Js.truthy ph); [|done]. simpl in H5.
    destruct (Js.truthy (Js.trim ph)) eqn:Ht; [|done]. injection H5 as <-.
    split; [apply trim_idem|]. intros Hempty. unfold Js.truthy in Ht. by rewrite Hempty in Ht. }
  destruct (strategy_aria_label e) as [t6|] eqn:H6.
  { intros [= <-]. split.
    - unfold strategy_aria_label in H6. destruct (getAttribute e "aria-label"); [|done].
      destruct (Js.truthy _); [|done]. injection H6 as <-. apply trim_idem.
    - intros ->. right. by exists e. }
  destruct (strategy_heading doc el 6) as [t7|] eqn:H7.
  { intros [= <-]. apply strategy_heading_found in H7 as [Ht Hne]. by split. }
  intros [= <-]. by split.
Qed.

(** X23. A label is always in trimmed form, and it is empty in two
    cases only: a preceding sibling with blank text was taken for the
    label, or the control's [aria-label] is blank.  Every other
    strategy gives a text that is not empty. *)
Theorem label_is_trimmed (doc : Node) (el : ref) (t : string) :
  getLabelForElement doc el = Normal t ->
  Js.trim t = t /\
  (t = "" ->
   strategy_siblings doc (previousElementSibling el) 4 = Some "" \/
   exists e, elem_at doc el = Some e /\ strategy_aria_label e = Some "").
Proof. apply getLabelForElement_form. Qed.

Lemma label_is_trimmed_witness :
  Js.trim "" = "" /\
  (strategy_siblings doc_blank_sibling (previousElementSibling [1; 0; 0]%nat) 4 = Some "" \/
   exists e, elem_at doc_blank_sibling [1; 0; 0]%nat = Some e /\
             strategy_aria_label e = Some "").
Proof.
  destruct (label_is_trimmed doc_blank_sibling [1; 0; 0]%nat "") as [H1 H2];
    [by vm_compute|].
  split; [exact H1|by apply H2].
Defined.

(** X24. For a field that was extracted with a label, the label is the
    key under which its answer is looked up and under which it is sent
    to the backend, and the key is in trimmed form: the second look-up
    of [autofillFields], under the trimmed key, asks for the same entry
    as the first. *)
Theorem extracted_label_is_the_key (doc : Node) (out : list Field.t) (f : Field.t)
    (answersMap : option (gmap string string)) :
  extractFields doc = Normal out ->
  f ∈ out ->
  Field.label_text f <> "" ->
  field_label f = Field.label_text f /\
  answer_at answersMap (Js.trim (field_label f)) = answer_at answersMap (field_label f).
Proof.
  intros Hex Hf Hne.
  assert (Hkey : field_label f = Field.label_text f).
  { unfold field_label, Js.or_else, Js.truthy.
    destruct (String.eqb (Field.label_text f) "") eqn:E; [|done].
    by apply String.eqb_eq in E. }
  split; [done|]. rewrite Hkey.
  unfold extractFields in Hex.
  destruct (mapM (describe doc) (visible_controls doc)) as [fields|] eqn:Hmap; [|done].
  simpl in Hex. injection Hex as <-. rewrite dedupe_first_seen in Hf.
  pose proof (elem_of_sublist _ _ _ Hf (first_seen_sublist fields ∅)) as Hin.
  destruct (mapM_members _ _ _ Hmap) as [_ Hmem].
  destruct (Hmem f Hin) as ([r e] & Hre & Hdesc).
  unfold describe in Hdesc.
  destruct (getLabelForElement doc r) as [l|] eqn:Hl; [|done]. simpl in Hdesc.
  injection Hdesc as <-. simpl.
  destruct (getLabelForElement_form doc r l Hl) as [-> _]. done.
Qed.

Lemma extracted_label_is_the_key_witness :
  field_label field_email = "Email" /\
  answer_at (Some {["Email" := "jane@doe.org"]}) (Js.trim (field_label field_email))
  = answer_at (Some {["Email" := "jane@doe.org"]}) (field_label field_email).
Proof.
  apply (extracted_label_is_the_key doc_contact [field_email; field_cv] field_email
           (Some {["Email" := "jane@doe.org"]})).
  - by vm_compute.
  - apply elem_of_cons. by left.
  - done.
Defined.
